(** * obsidiantools [_io.py]: listing, sub-tree filtering and file-name keys

    A shallow embedding of [src/obsidiantools/_io.py] and of the parts of
    [pathlib], [fnmatch] and [numpy] it calls, followed by the properties of
    the specification that hold of it and the places where it departs from
    them.

    Conventions of the embedding.
    - A Python [str] is a Rocq [string] (characters are the 256 values of
      [ascii]); comparisons are exact and case sensitive, as [==] on [str].
    - [pathlib] is embedded as CPython 3.9 to 3.11 implements it for POSIX
      ([PurePosixPath]): a path is its root and its list [_parts]; the drive
      is always empty on POSIX and is left out. Methods that take another
      path parse its parts again, as [_parse_args] does.
    - [fnmatch.translate] is embedded with its bracket expressions; the
      regular expression it returns is kept as a structure and matched as
      [re.fullmatch] matches it.
    - An exception is a value of [exn]; a function that may raise returns
      [result A = exn + A] and errors propagate through [≫=].
    - The file system is a finite tree; symbolic links and permission errors
      are outside the model. *)

From Stdlib Require Import ZArith Ascii String List.
From stdpp Require Import base tactics option list sorting strings gmap.

Local Open Scope string_scope.
Local Open Scope Z_scope.
Local Open Scope nat_scope.
Local Open Scope list_scope.

(** ** Exceptions *)

Inductive exn : Type :=
  | ValueError
  | IndexError
  | NotImplementedError.

Abbreviation result := (sum exn).

Definition raise {A} (e : exn) : result A := inl e.

#[global] Instance result_ret : MRet result := λ A x, inr x.
#[global] Instance result_bind : MBind result := λ A B f m,
  match m with
  | inl e => inl e
  | inr x => f x
  end.
#[global] Instance result_fmap : FMap result := λ A B f m,
  match m with
  | inl e => inl e
  | inr x => inr (f x)
  end.

(** ** Python [str] operations *)

Module Str.

(** [c in s] *)
Fixpoint contains (c : ascii) (s : string) : bool :=
  match s with
  | EmptyString => false
  | String a s' => Ascii.eqb a c || contains c s'
  end.

(** [s.split(c)] for a one-character separator. *)
Fixpoint split (c : ascii) (s : string) : list string :=
  match s with
  | EmptyString => [EmptyString]
  | String a s' =>
      if Ascii.eqb a c then EmptyString :: split c s'
      else match split c s' with
           | w :: ws => String a w :: ws
           | [] => [String a EmptyString]
           end
  end.

(** [s.lstrip(c)] *)
Fixpoint lstrip (c : ascii) (s : string) : string :=
  match s with
  | EmptyString => EmptyString
  | String a s' => if Ascii.eqb a c then lstrip c s' else s
  end.

(** [s.rfind(c)]: the highest index of [c] in [s], or [-1]. *)
Fixpoint rfind (c : ascii) (s : string) : Z :=
  match s with
  | EmptyString => (-1)%Z
  | String a s' =>
      let r := rfind c s' in
      if (0 <=? r)%Z then (1 + r)%Z
      else if Ascii.eqb a c then 0%Z else (-1)%Z
  end.

(** [s[:n]] and [s[n:]] for [0 <= n]. *)
Fixpoint take (n : nat) (s : string) : string :=
  match n, s with
  | S n', String a s' => String a (take n' s')
  | _, _ => EmptyString
  end.

Fixpoint drop (n : nat) (s : string) : string :=
  match n, s with
  | S n', String _ s' => drop n' s'
  | _, _ => s
  end.

(** [sep.join(l)] *)
Fixpoint join (sep : string) (l : list string) : string :=
  match l with
  | [] => EmptyString
  | [x] => x
  | x :: rest => x +:+ sep +:+ join sep rest
  end.

(** [s.startswith(t)] *)
Definition startswith (t s : string) : bool := String.prefix t s.

(** [bool(s)] *)
Definition nonempty (s : string) : bool := negb (String.eqb s EmptyString).

(** The NUL character. *)
Definition nul : ascii := "000"%char.

(** [s.rstrip(NUL)]: [s] without the NUL characters at its end. *)
Fixpoint rstrip_nul (s : string) : string :=
  match s with
  | EmptyString => EmptyString
  | String a s' =>
      let t := rstrip_nul s' in
      if Ascii.eqb a nul && negb (nonempty t) then EmptyString
      else String a t
  end.

End Str.

(** ** [pathlib]: pure paths, POSIX flavour *)

Module Pathlib.

Definition sep : ascii := "/"%char.

(** A [PurePosixPath] after parsing: [_root] is [""], ["/"] or ["//"];
    [_parts] holds the components, the root first when there is one. *)
Record PurePath : Type := mkPath { _root : string; _parts : list string }.

#[global] Instance PurePath_eq_dec : EqDecision PurePath.
Proof. solve_decision. Defined.

(** [_PosixFlavour.splitroot]: the root of one string and what follows it. *)
Definition splitroot (part : string) : string * string :=
  match part with
  | String a _ =>
      if Ascii.eqb a sep then
        let stripped_part := Str.lstrip sep part in
        if String.length part - String.length stripped_part =? 2
        then ("//", stripped_part)
        else ("/", stripped_part)
      else ("", part)
  | EmptyString => ("", part)
  end.

(** The components one string contributes, in reading order. *)
Definition rel_components (rel : string) : list string :=
  if Str.contains sep rel then
    List.filter (λ x, Str.nonempty x && negb (String.eqb x "."))
                (Str.split sep rel)
  else if Str.nonempty rel && negb (String.eqb rel ".") then [rel]
  else [].

(** [_Flavour.parse_parts]. The source walks [reversed(parts)], appends to
    [parsed] and reverses at the end; [parse_rev] receives the reversed list
    and returns the components in their final order. The walk stops at the
    first string that has a root. *)
Fixpoint parse_rev (it : list string) : string * list string :=
  match it with
  | [] => ("", [])
  | part :: it' =>
      if Str.nonempty part then
        let '(root, rel) := splitroot part in
        if Str.nonempty root then (root, root :: rel_components rel)
        else let '(root', before) := parse_rev it' in
             (root', before ++ rel_components rel)
      else parse_rev it'
  end.

Definition parse_parts (parts : list string) : string * list string :=
  parse_rev (rev parts).

(** An argument of a path method: a [str] or another path. *)
Inductive path_arg : Type :=
  | ArgStr (s : string)
  | ArgPath (p : PurePath).

(** [PurePath._parse_args] *)
Definition _parse_args (args : list path_arg) : string * list string :=
  parse_parts
    (concat (List.map (λ a, match a with
                            | ArgStr s => [s]
                            | ArgPath p => _parts p
                            end) args)).

(** [Path(a, b, ...)] and [Path(s)] *)
Definition PathOf (args : list path_arg) : PurePath :=
  let '(root, parts) := _parse_args args in mkPath root parts.

Definition Path (s : string) : PurePath := PathOf [ArgStr s].

(** [PurePath.__eq__]: the (case-folded) parts are compared, and case
    folding is the identity on POSIX. *)
Definition path_eqb (p q : PurePath) : bool :=
  bool_decide (_parts p = _parts q).

(** [PurePath.__str__] *)
Definition _format_parsed_parts (root : string) (parts : list string) : string :=
  if Str.nonempty root then root +:+ Str.join "/" (tail parts)
  else Str.join "/" parts.

Definition str (p : PurePath) : string :=
  let s := _format_parsed_parts (_root p) (_parts p) in
  if Str.nonempty s then s else ".".

(** [PurePath.name] *)
Definition name (p : PurePath) : string :=
  if length (_parts p) =? (if Str.nonempty (_root p) then 1 else 0)
  then EmptyString
  else List.last (_parts p) EmptyString.

(** [PurePath.suffix] *)
Definition suffix (p : PurePath) : string :=
  let name := name p in
  let i := Str.rfind "."%char name in
  if ((0 <? i) && (i <? Z.of_nat (String.length name) - 1))%Z
  then Str.drop (Z.to_nat i) name
  else EmptyString.

(** [PurePath.with_suffix] *)
Definition with_suffix (p : PurePath) (suffix' : string) : result PurePath :=
  if Str.contains sep suffix' then raise ValueError
  else if (Str.nonempty suffix' && negb (Str.startswith "." suffix'))
          || String.eqb suffix' "."
  then raise ValueError
  else
    let name := name p in
    if negb (Str.nonempty name) then raise ValueError
    else
      let old_suffix := suffix p in
      let name' :=
        if negb (Str.nonempty old_suffix) then name +:+ suffix'
        else Str.take (String.length name - String.length old_suffix) name
             +:+ suffix' in
      mret (mkPath (_root p) (removelast (_parts p) ++ [name'])).

(** [PurePath.relative_to] *)
Definition relative_to (p : PurePath) (other : list path_arg) : result PurePath :=
  let parts := _parts p in
  let root := _root p in
  let abs_parts :=
    if Str.nonempty root then "" :: root :: tail parts else parts in
  let '(to_root, to_parts) := _parse_args other in
  let to_abs_parts :=
    if Str.nonempty to_root then "" :: to_root :: tail to_parts
    else to_parts in
  let n := length to_abs_parts in
  if (if n =? 0 then Str.nonempty root
      else negb (bool_decide (take n abs_parts = to_abs_parts)))
  then raise ValueError
  else mret (mkPath (if n =? 1 then root else "") (drop n abs_parts)).

(** [PurePath.is_relative_to]: [ValueError] is the one exception that
    [relative_to] raises. *)
Definition is_relative_to (p : PurePath) (other : list path_arg) : bool :=
  match relative_to p other with
  | inr _ => true
  | inl _ => false
  end.

(** [PurePath.parent] *)
Definition parent (p : PurePath) : PurePath :=
  if (length (_parts p) =? 1) && Str.nonempty (_root p) then p
  else mkPath (_root p) (removelast (_parts p)).

(** [PurePath._make_child_relpath] *)
Definition _make_child_relpath (p : PurePath) (part : string) : PurePath :=
  mkPath (_root p) (_parts p ++ [part]).

End Pathlib.

Import Pathlib.

(** ** [numpy]: the array operations of the file-name resolver

    A one-dimensional array is a list. An array of strings made from a list
    of [str] has a fixed width, the shorter strings being padded with NUL
    characters: an element is compared, and read back, without the NUL
    characters at its end. An array made with [dtype=object] holds the
    [str] values themselves. *)

Module Numpy.

(** [np.array(l)] for a list of [str]: the elements as the array gives them
    back. *)
Definition array (l : list string) : list string := List.map Str.rstrip_nul l.

(** Position of the first element equal to [x]. *)
Definition index_of (x : string) (u : list string) : nat :=
  from_option fst 0 (list_find (λ y, y = x) u).

(** Number of elements equal to [x]. *)
Definition count (x : string) (ar : list string) : nat :=
  length (List.filter (String.eqb x) ar).

(** [np.unique(ar, return_inverse=True, return_counts=True, axis=0)] on a
    one-dimensional array, [ar] being the values of its elements: the sorted
    distinct values, for every element of [ar] its index among them, and how
    often each of them occurs. *)
Definition unique (ar : list string) : list string * list nat * list nat :=
  let u := remove_dups (merge_sort String.le ar) in
  (u, List.map (λ x, index_of x u) ar, List.map (λ x, count x ar) u).

(** [arr[ix]] for an integer index array. *)
Definition take {A} (arr : list A) (ix : list nat) : result (list A) :=
  mapM (λ i, match arr !! i with
             | Some x => mret x
             | None => raise IndexError
             end) ix.

(** [np.where(mask)[0]]: the positions that hold [True]. *)
Definition where_ (mask : list bool) : list nat :=
  List.filter (λ i, default false (mask !! i)) (seq 0 (length mask)).

(** One step of an indexed assignment. *)
Definition put1 {A} (arr : result (list A)) (iv : nat * A) : result (list A) :=
  arr ≫= λ a, if fst iv <? length a then mret (<[fst iv := snd iv]> a)
              else raise IndexError.

(** [arr[ix] = vals]: a one-element [vals] is broadcast, any other shape
    has to be that of [ix]. *)
Definition put {A} (arr : list A) (ix : list nat) (vals : list A) : result (list A) :=
  let vals' := match vals with
               | [v] => replicate (length ix) v
               | _ => vals
               end in
  if length vals' =? length ix
  then foldl put1 (mret arr) (zip ix vals')
  else raise ValueError.

End Numpy.

(** ** [fnmatch.translate] and the compiled pattern

    [_PosixFlavour.compile_pattern] is
    [re.compile(fnmatch.translate(pat)).fullmatch]. The regular expression
    that [translate] builds is kept as a structure instead of a string. *)

Module Fnmatch.

(** One position of the regular expression. *)
Inductive item : Type :=
  | Single (c : ascii)
  | Range (lo hi : ascii).

Inductive atom : Type :=
  | AnyChar                                   (* [.] under [(?s)] *)
  | Never                                     (* [(?!)] *)
  | Lit (c : ascii)                           (* [re.escape(c)] *)
  | CharSet (negated : bool) (items : list item).

Inductive token : Type :=
  | STAR
  | Atom (a : atom).

Definition code (c : ascii) : nat := nat_of_ascii c.

(** An element of the text between the brackets after the chunks are
    joined: a character of a chunk (escaped where the source escapes it, so
    always literal), or a hyphen written by [join]. *)
Inductive elem : Type :=
  | Chr (c : ascii)
  | Hyphen.

Definition elem_char (e : elem) : ascii :=
  match e with
  | Chr c => c
  | Hyphen => "-"%char
  end.

(** How [re] reads the inside of a character set. *)
Fixpoint parse_items (fuel : nat) (els : list elem) : list item :=
  match fuel with
  | 0 => []
  | S fuel' =>
      match els with
      | [] => []
      | [x; Hyphen] => [Single (elem_char x); Single "-"%char]
      | x :: Hyphen :: y :: rest =>
          Range (elem_char x) (elem_char y) :: parse_items fuel' rest
      | x :: rest => Single (elem_char x) :: parse_items fuel' rest
      end
  end.

(** [pat.find('-', k, j)] on the text [stuff = pat[i:j]], positions counted
    from the start of [stuff]. *)
Definition find_hyphen (k : nat) (stuff : list ascii) : option nat :=
  (λ r, k + fst r) <$> list_find (λ c, c = "-"%char) (drop k stuff).

(** Lines 108-116: the chunks between range hyphens. [i] is the start of
    the current chunk and [k] the position the search resumes at. *)
Fixpoint chunks_loop (fuel : nat) (stuff : list ascii) (i k : nat)
    : list (list ascii) * nat :=
  match fuel with
  | 0 => ([], i)
  | S fuel' =>
      match find_hyphen k stuff with
      | None => ([], i)
      | Some k' =>
          let '(more, i') := chunks_loop fuel' stuff (k' + 1) (k' + 3) in
          (take (k' - i) (drop i stuff) :: more, i')
      end
  end.

(** Lines 123-126: an empty range, whose start is above its end, is
    removed; the loop runs from the last pair of chunks to the first. *)
Definition remove_empty_range (c : list ascii) (acc : list (list ascii))
    : list (list ascii) :=
  match acc with
  | [] => [c]
  | d :: rest =>
      if code (hd "000"%char d) <? code (List.last c "000"%char)
      then (removelast c ++ tail d) :: rest
      else c :: d :: rest
  end.

Fixpoint intercalate (chunks : list (list ascii)) : list elem :=
  match chunks with
  | [] => []
  | [c] => Chr <$> c
  | c :: rest => (Chr <$> c) ++ Hyphen :: intercalate rest
  end.

(** Lines 104-145: the atom for the text between the brackets. *)
Definition bracket (stuff : list ascii) : atom :=
  let els :=
    if bool_decide ("-"%char ∈ stuff) then
      let k := match stuff with
               | "!"%char :: _ => 2
               | _ => 1
               end in
      let '(chunks, i) := chunks_loop (length stuff) stuff 0 k in
      let chunk := drop i stuff in
      let chunks :=
        match chunk with
        | [] => removelast chunks ++ [List.last chunks [] ++ ["-"%char]]
        | _ => chunks ++ [chunk]
        end in
      intercalate (foldr remove_empty_range [] chunks)
    else Chr <$> stuff in
  match els with
  | [] => Never
  | [Chr "!"%char] => AnyChar
  | Chr "!"%char :: els' => CharSet true (parse_items (length els') els')
  | _ => CharSet false (parse_items (length els) els)
  end.

(** Lines 94-100: the position [j] of the closing bracket, counted from the
    character after the opening one; [None] when there is none. *)
Definition closing (rest : list ascii) : option nat :=
  let j := match rest with
           | "!"%char :: _ => 1
           | _ => 0
           end in
  let j := match drop j rest with
           | "]"%char :: _ => j + 1
           | _ => j
           end in
  (λ r, j + fst r) <$> list_find (λ c, c = "]"%char) (drop j rest).

(** The first loop of [translate]. [skip] counts the characters of a
    bracket expression still to pass over; [star] tells whether the last
    token added is [STAR]. *)
Fixpoint tokens (skip : nat) (star : bool) (pat : list ascii) : list token :=
  match pat with
  | [] => []
  | c :: pat' =>
      match skip with
      | S skip' => tokens skip' star pat'
      | 0 =>
          if Ascii.eqb c "*" then
            if star then tokens 0 true pat' else STAR :: tokens 0 true pat'
          else if Ascii.eqb c "?" then Atom AnyChar :: tokens 0 false pat'
          else if Ascii.eqb c "[" then
            match closing pat' with
            | None => Atom (Lit "["%char) :: tokens 0 false pat'
            | Some j => Atom (bracket (take j pat')) :: tokens (j + 1) false pat'
            end
          else Atom (Lit c) :: tokens 0 false pat'
      end
  end.

(** The second loop of [translate]: the pieces between the stars.
    [leading] is matched first; every piece of [interior] is an atomic group
    [(?>.*?fixed)]; [final] is [None] without a star, [Some fixed] for a
    closing [.*fixed]. *)
Record regex : Type := mkRegex {
  leading : list atom;
  interior : list (list atom);
  final : option (list atom)
}.

Fixpoint fixed_of (toks : list token) : list atom * list token :=
  match toks with
  | Atom a :: toks' => let '(f, r) := fixed_of toks' in (a :: f, r)
  | _ => ([], toks)
  end.

Fixpoint groups (fuel : nat) (toks : list token)
    : list (list atom) * option (list atom) :=
  match fuel with
  | 0 => ([], None)
  | S fuel' =>
      match toks with
      | [] => ([], None)
      | _ :: toks' =>
          let '(fixed, rest) := fixed_of toks' in
          match rest with
          | [] => ([], Some fixed)
          | _ => let '(gs, fin) := groups fuel' rest in (fixed :: gs, fin)
          end
      end
  end.

Definition translate (pat : string) : regex :=
  let inp := tokens 0 false (list_ascii_of_string pat) in
  let '(lead, rest) := fixed_of inp in
  let '(gs, fin) := groups (length rest) rest in
  mkRegex lead gs fin.

(** Matching of one character. *)
Definition item_matches (c : ascii) (it : item) : bool :=
  match it with
  | Single d => Ascii.eqb c d
  | Range lo hi => (code lo <=? code c) && (code c <=? code hi)
  end.

Definition atom_matches (a : atom) (c : ascii) : bool :=
  match a with
  | AnyChar => true
  | Never => false
  | Lit d => Ascii.eqb c d
  | CharSet negated items => xorb negated (existsb (item_matches c) items)
  end.

(** [fixed] matched at the start of [s]: what is left of [s]. *)
Fixpoint match_fixed (fixed : list atom) (s : list ascii) : option (list ascii) :=
  match fixed, s with
  | [], _ => Some s
  | a :: fixed', c :: s' =>
      if atom_matches a c then match_fixed fixed' s' else None
  | _ :: _, [] => None
  end.

(** [(?>.*?fixed)]: the first place where [fixed] matches, for good. *)
Fixpoint match_minimal (fixed : list atom) (s : list ascii) : option (list ascii) :=
  match match_fixed fixed s with
  | Some r => Some r
  | None =>
      match s with
      | [] => None
      | _ :: s' => match_minimal fixed s'
      end
  end.

(** [.*fixed\Z]: [fixed] matches the end of [s]. *)
Definition match_final (fixed : list atom) (s : list ascii) : bool :=
  (length fixed <=? length s)
  && bool_decide (match_fixed fixed (drop (length s - length fixed) s) = Some []).

Definition fullmatch (r : regex) (s : string) : bool :=
  match match_fixed (leading r) (list_ascii_of_string s)
          ≫= λ s1, foldl (λ acc g, acc ≫= match_minimal g) (Some s1) (interior r) with
  | None => false
  | Some rest =>
      match final r with
      | None => bool_decide (rest = [])
      | Some fixed => match_final fixed rest
      end
  end.

Definition compile_pattern (pat : string) : string → bool :=
  fullmatch (translate pat).

End Fnmatch.

(** ** The file system and [Path.glob]

    A directory lists named entries; a place in the tree is a node together
    with the directories above it, so that [..] can be followed. A concrete
    [Path] is a pure path together with the place it denotes. *)

Module Fs.

Inductive node : Type :=
  | File
  | Dir (entries : list (string * node)).

Record loc : Type := mkLoc { here : node; above : list node }.

Definition is_dir (l : loc) : bool :=
  match here l with
  | Dir _ => true
  | File => false
  end.

Definition is_file (l : loc) : bool :=
  match here l with
  | File => true
  | Dir _ => false
  end.

(** [os.scandir]: the entries of a directory. *)
Definition scandir (l : loc) : list (string * loc) :=
  match here l with
  | Dir entries =>
      List.map (λ e, (fst e, mkLoc (snd e) (here l :: above l))) entries
  | File => []
  end.

(** The place one more component leads to, if it exists. *)
Definition lookup (l : loc) (nm : string) : option loc :=
  if negb (is_dir l) then None
  else if String.eqb nm ".." then
    Some (match above l with
          | [] => l
          | up :: ups => mkLoc up ups
          end)
  else if String.eqb nm "." then Some l
  else snd <$> List.find (λ e, String.eqb (fst e) nm) (scandir l).

Fixpoint walk (l : loc) (components : list string) : option loc :=
  match components with
  | [] => Some l
  | nm :: rest => lookup l nm ≫= λ l', walk l' rest
  end.

(** The whole tree and the current directory of the process. *)
Record world : Type := mkWorld { root_dir : node; cwd : list string }.

Definition resolve (w : world) (p : PurePath) : option loc :=
  walk (mkLoc (root_dir w) [])
       (if Str.nonempty (_root p) then tail (_parts p)
        else cwd w ++ _parts p).

Definition entry : Type := PurePath * loc.

(** The selectors of [pathlib]'s globbing. *)
Inductive selector : Type :=
  | Terminating
  | Precise (name : string) (dironly : bool) (successor : selector)
  | Wildcard (pat : string) (dironly : bool) (successor : selector)
  | RecursiveWildcard (successor : selector).

Fixpoint infix (t s : string) : bool :=
  String.prefix t s
  || match s with
     | EmptyString => false
     | String _ s' => infix t s'
     end.

Definition _is_wildcard_pattern (pat : string) : bool :=
  Str.contains "*" pat || Str.contains "?" pat || Str.contains "[" pat.

Fixpoint _make_selector (pattern_parts : list string) : result selector :=
  match pattern_parts with
  | [] => raise IndexError
  | pat :: child_parts =>
      if negb (Str.nonempty pat) then mret Terminating
      else
        let dironly := match child_parts with
                       | [] => false
                       | _ => true
                       end in
        let successor := match child_parts with
                         | [] => mret Terminating
                         | _ => _make_selector child_parts
                         end in
        if String.eqb pat "**" then RecursiveWildcard <$> successor
        else if infix "**" pat then raise ValueError
        else if _is_wildcard_pattern pat
             then Wildcard pat dironly <$> successor
             else Precise pat dironly <$> successor
  end.

(** [_RecursiveWildcardSelector._iterate_directories] *)
Fixpoint _iterate_directories (nd : node) (ups : list node) (path : PurePath)
    : list entry :=
  (path, mkLoc nd ups) ::
  match nd with
  | File => []
  | Dir entries =>
      (fix children (es : list (string * node)) : list entry :=
         match es with
         | [] => []
         | (nm, c) :: es' =>
             match c with
             | Dir _ =>
                 _iterate_directories c (nd :: ups) (_make_child_relpath path nm)
             | File => []
             end ++ children es'
         end) entries
  end.

(** The [yielded] set of the recursive selector: a path is given once. *)
Fixpoint once (yielded : list PurePath) (found : list entry) : list entry :=
  match found with
  | [] => []
  | e :: found' =>
      if existsb (path_eqb (fst e)) yielded then once yielded found'
      else e :: once (fst e :: yielded) found'
  end.

Fixpoint _select_from (sel : selector) (parent_path : entry) : list entry :=
  match sel with
  | Terminating => [parent_path]
  | Precise name dironly successor =>
      let path := _make_child_relpath (fst parent_path) name in
      match lookup (snd parent_path) name with
      | Some l =>
          if dironly && negb (is_dir l) then []
          else _select_from successor (path, l)
      | None => []
      end
  | Wildcard pat dironly successor =>
      flat_map
        (λ e, if dironly && negb (is_dir (snd e)) then []
              else if Fnmatch.compile_pattern pat (fst e)
              then _select_from successor
                     (_make_child_relpath (fst parent_path) (fst e), snd e)
              else [])
        (scandir (snd parent_path))
  | RecursiveWildcard successor =>
      once []
        (flat_map (_select_from successor)
           (_iterate_directories (here (snd parent_path))
              (above (snd parent_path)) (fst parent_path)))
  end.

(** [_Selector.select_from] *)
Definition select_from (w : world) (sel : selector) (parent_path : PurePath)
    : list entry :=
  match resolve w parent_path with
  | Some l => if is_dir l then _select_from sel (parent_path, l) else []
  | None => []
  end.

(** [pattern and pattern[-1] == sep] *)
Definition ends_with_sep (pattern : string) : bool :=
  Str.nonempty pattern
  && Ascii.eqb (List.last (list_ascii_of_string pattern) "000"%char) sep.

(** [Path.glob] *)
Definition glob (w : world) (self : PurePath) (pattern : string)
    : result (list entry) :=
  if negb (Str.nonempty pattern) then raise ValueError
  else
    let '(root, pattern_parts) := parse_parts [pattern] in
    if Str.nonempty root then raise NotImplementedError
    else
      let pattern_parts :=
        if ends_with_sep pattern then pattern_parts ++ [""]
        else pattern_parts in
      selector ← _make_selector pattern_parts;
      mret (select_from w selector self).

(** [Path.rglob] *)
Definition rglob (w : world) (self : PurePath) (pattern : string)
    : result (list entry) :=
  let '(root, pattern_parts) := parse_parts [pattern] in
  if Str.nonempty root then raise NotImplementedError
  else
    let pattern_parts :=
      if ends_with_sep pattern then pattern_parts ++ [""]
      else pattern_parts in
    selector ← _make_selector ("**" :: pattern_parts);
    mret (select_from w selector self).

End Fs.

(** ** [_io.py]: filtering by sub-directory and file-name keys *)

(** Lines 7-16 *)
Definition get_relpaths_from_dir (w : Fs.world) (dir_path : PurePath)
    (extension : string) : result (list PurePath) :=
  found ← Fs.rglob w dir_path ("*." +:+ extension);
  mapM (λ p, relative_to (fst p) [ArgPath dir_path])
       (List.filter (λ p, Fs.is_file (snd p)) found).

(** Lines 62-67 *)
Definition _get_valid_filepaths_by_ext_set (w : Fs.world) (dirpath : PurePath)
    (exts : gset string) : result (list PurePath) :=
  found ← Fs.glob w (PathOf [ArgPath dirpath]) "**/*";
  let all_files :=
    mapM (λ p, relative_to (fst p) [ArgPath dirpath])
         (List.filter (λ p, bool_decide (suffix (fst p) ∈ exts)) found) in
  all_files.

(** [include_subdirs=None] is [None]; [not include_subdirs] holds for [None]
    and for an empty collection. *)
Definition falsy (include_subdirs : option (list string)) : bool :=
  match include_subdirs with
  | None | Some [] => true
  | Some (_ :: _) => false
  end.

(** Line 49: [[Path(s).with_suffix("").relative_to(".") for s in include_subdirs]] *)
Definition normalize_subdir (s : string) : result PurePath :=
  with_suffix (Path s) "" ≫= λ q, relative_to q [ArgStr "."].

Definition allowed_dirs_of (include_subdirs : list string) : result (list PurePath) :=
  mapM normalize_subdir include_subdirs.

(** Lines 51-54 *)
Definition _in_allowed_tree (allowed_dirs : list PurePath) (path : PurePath) : bool :=
  let parent := parent path in
  existsb (λ d, path_eqb parent d || is_relative_to parent [ArgPath d])
          allowed_dirs.

(** Lines 42-60 of [get_relpaths_matching_subdirs]: what is done with the
    listing [all_rel]. This is the SubtreeFilter of the specification. *)
Definition matching_subdirs (all_rel : list PurePath)
    (include_subdirs : option (list string)) (include_root : bool)
    : result (list PurePath) :=
  if falsy include_subdirs then
    mret (if include_root then all_rel
          else List.filter (λ p, negb (path_eqb (parent p) (Path "."))) all_rel)
  else
    allowed_dirs ← allowed_dirs_of (default [] include_subdirs);
    mret (List.filter
            (λ p, (include_root && path_eqb (parent p) (Path "."))
                  || _in_allowed_tree allowed_dirs p)
            all_rel).

(** Lines 19-60 *)
Definition get_relpaths_matching_subdirs (w : Fs.world) (dir_path : PurePath)
    (extension : string) (include_subdirs : option (list string))
    (include_root : bool) : result (list PurePath) :=
  all_rel ← get_relpaths_from_dir w dir_path extension;
  matching_subdirs all_rel include_subdirs include_root.

(** Lines 72-86 of [_get_shortest_path_by_filename]: the array of keys. *)
Definition shortest_paths_arr (relpaths_list : list PurePath) : result (list string) :=
  let all_file_names_list := List.map name relpaths_list in
  let '(_, inverse_ix, counts) :=
    Numpy.unique (Numpy.array all_file_names_list) in
  per_position ← Numpy.take counts inverse_ix;
  let dupe_names_ix := Numpy.where_ (List.map (λ c, 1 <? c) per_position) in
  vals ← Numpy.take (Numpy.array (List.map str relpaths_list)) dupe_names_ix;
  Numpy.put all_file_names_list dupe_names_ix vals.

(** A dict comprehension: later items replace earlier ones with the same key. *)
Definition dict_of {V} (items : list (string * V)) : gmap string V :=
  foldl (λ m kv, <[fst kv := snd kv]> m) ∅ items.

Definition _get_shortest_path_by_filename (relpaths_list : list PurePath)
    : result (gmap string PurePath) :=
  keys ← shortest_paths_arr relpaths_list;
  mret (dict_of (zip keys relpaths_list)).

(** ** The vocabulary of the specification *)

(** A component as [pathlib] keeps it after parsing: not empty, without a
    separator, and not the current-directory dot. *)
Definition wf_component (x : string) : Prop :=
  x ≠ "" ∧ Str.contains sep x = false ∧ x ≠ ".".

#[global] Instance wf_component_dec x : Decision (wf_component x).
Proof. unfold wf_component. apply _. Defined.

(** A RelativePath: no root, well-formed components. *)
Definition wf_rel (p : PurePath) : Prop :=
  _root p = "" ∧ Forall wf_component (_parts p).

#[global] Instance wf_rel_dec p : Decision (wf_rel p).
Proof. unfold wf_rel. apply _. Defined.

(** Any parsed path: a relative one, or a root followed by components. *)
Definition wf_path (p : PurePath) : Prop :=
  wf_rel p
  ∨ ((_root p = "/" ∨ _root p = "//")
     ∧ head (_parts p) = Some (_root p)
     ∧ Forall wf_component (tail (_parts p))).

#[global] Instance wf_path_dec p : Decision (wf_path p).
Proof. unfold wf_path. apply _. Defined.

(** The segment sequence of a directory: its components as [pathlib] reads
    them when the directory is the argument of a path method. *)
Definition segments (d : PurePath) : list string :=
  snd (_parse_args [ArgPath d]).

(** [d2] is under [d1]: the segments of [d1] are a prefix of those of [d2]. *)
Definition is_under (d2 d1 : PurePath) : Prop :=
  segments d1 `prefix_of` segments d2.

(** Rule 3 of the SubtreeFilter. *)
Definition retained (include_root : bool) (allowed : list PurePath)
    (p : PurePath) : Prop :=
  (include_root = true ∧ parent p = Path ".")
  ∨ Exists (λ d, parent p = d ∨ is_under (parent p) d) allowed.

#[global] Instance retained_dec include_root allowed p :
  Decision (retained include_root allowed p).
Proof. unfold retained, is_under. apply _. Defined.

(** A SubdirSpec that cannot be taken as a directory below the root. *)
Definition malformed (s : string) : Prop :=
  _root (Path s) ≠ "" ∨ name (Path s) = "".

#[global] Instance malformed_dec s : Decision (malformed s).
Proof. unfold malformed. apply _. Defined.

(** How often a bare file name occurs among the names of [paths]. *)
Definition multiplicity (fname : string) (paths : list PurePath) : nat :=
  length (filter (λ p, name p = fname) paths).

(** Rules 3 and 4 of the FilenameResolver. *)
Definition key_of (paths : list PurePath) (p : PurePath) : string :=
  if decide (1 < multiplicity (name p) paths) then str p else name p.

(** A string that an array of strings gives back as it is: it does not end
    with a NUL character. *)
Definition unpadded (s : string) : Prop := Str.rstrip_nul s = s.

#[global] Instance unpadded_dec s : Decision (unpadded s).
Proof. unfold unpadded. apply _. Defined.

(** The key that lines 72-86 give a path of [paths], whatever the names:
    the names are counted as the array of names holds them, and the string
    of a path is read back from the array of strings. *)
Definition array_key (paths : list PurePath) (p : PurePath) : string :=
  if decide (1 < Numpy.count (Str.rstrip_nul (name p))
                    (Numpy.array (List.map name paths)))
  then Str.rstrip_nul (str p)
  else name p.

(** The entry [l'] lies below the directory [l], [cs] being the names on
    the way down. *)
Inductive reaches : Fs.loc → list string → Fs.loc → Prop :=
  | reaches_here l : reaches l [] l
  | reaches_down l nm c cs l' :
      (nm, c) ∈ Fs.scandir l → reaches c cs l' → reaches l (nm :: cs) l'.

(** [l'] is an entry below the directory [dir_path] of the world [w], at
    the relative path [cs]. *)
Definition below (w : Fs.world) (dir_path : PurePath) (cs : list string)
    (l' : Fs.loc) : Prop :=
  cs ≠ [] ∧ ∃ l, Fs.resolve w dir_path = Some l ∧ reaches l cs l'.

(** An extension that is matched literally: no wild-card character of
    [fnmatch] and no separator in it. *)
Definition literal (extension : string) : Prop :=
  Str.contains "*" extension = false ∧ Str.contains "?" extension = false
  ∧ Str.contains "[" extension = false ∧ Str.contains sep extension = false.

#[global] Instance literal_dec extension : Decision (literal extension).
Proof. unfold literal. apply _. Defined.

(** The name ends with a dot followed by the extension. *)
Definition has_extension (extension : string) (fname : string) : Prop :=
  ∃ stem, fname = stem +:+ "." +:+ extension.

(** A directory lists every name once, at every level. *)
Inductive wf_node : Fs.node → Prop :=
  | wf_File : wf_node Fs.File
  | wf_Dir entries :
      NoDup (fst <$> entries) →
      Forall (λ e, wf_node (snd e)) entries →
      wf_node (Fs.Dir entries).

Definition wf_world (w : Fs.world) : Prop := wf_node (Fs.root_dir w).

(** A small vault, as in scenario A of the specification, in a home
    directory. *)
Definition vault : Fs.node :=
  Fs.Dir [("a.md", Fs.File);
          ("sub", Fs.Dir [("a.md", Fs.File); ("b.md", Fs.File);
                          ("x.md", Fs.Dir [("c.txt", Fs.File)])]);
          ("n.txt", Fs.File)].

Definition home_world : Fs.world :=
  Fs.mkWorld (Fs.Dir [("home", Fs.Dir [("v", vault)])]) ["home"].

(** The components that parsing keeps. *)
Definition keep (x : string) : bool :=
  Str.nonempty x && negb (String.eqb x ".").

(** The name that [with_suffix("")] gives: the final name without its suffix. *)
Definition stem_of (p : PurePath) : string :=
  if Str.nonempty (suffix p)
  then Str.take (String.length (name p) - String.length (suffix p)) (name p)
  else name p.

(** What [join] writes after the first component. *)
Definition tail_str (rest : list string) : string :=
  match rest with
  | [] => ""
  | _ => String sep (Str.join "/" rest)
  end.

(** The path [cs] further down from [path]. *)
Definition extend (path : PurePath) (cs : list string) : PurePath :=
  mkPath (_root path) (_parts path ++ cs).

(** A place all of whose surroundings list every name once. *)
Definition wf_loc (l : Fs.loc) : Prop :=
  wf_node (Fs.here l) ∧ Forall wf_node (Fs.above l).

(** Two paths whose names differ in a NUL character at the end. *)
Definition nul_named : list PurePath :=
  [Path (String "a" (String Str.nul "")); Path "a"].

(** The paths of scenarios B and A of the specification. *)
Definition scenario_B : list PurePath :=
  Path <$> ["Cat1/x.md"; "Cat1/Sub/y.md"; "Cat2/z.md"; "root.md"].

Definition scenario_A : list PurePath :=
  Path <$> ["a.md"; "sub/a.md"; "sub/b.md"].

(** A path that sits directly in the root: what [p.parent == Path(".")]
    tests. *)
Definition at_root (p : PurePath) : Prop := _parts (parent p) = [].

#[global] Instance at_root_dec p : Decision (at_root p).
Proof. unfold at_root. apply _. Defined.

(** The directory that line 49 makes of a SubdirSpec it accepts. *)
Definition normalized (s : string) : PurePath :=
  mkPath "" (removelast (_parts (Path s)) ++ [stem_of (Path s)]).

(** The path denotes a directory of the world. *)
Definition is_directory (w : Fs.world) (p : PurePath) : Prop :=
  ∃ l, Fs.resolve w p = Some l ∧ Fs.is_dir l = true.

(** A name that a file system can hold: not empty, not the dot, without a
    separator and without a NUL character. *)
Definition fs_name (x : string) : Prop :=
  wf_component x ∧ Str.contains Str.nul x = false.

#[global] Instance fs_name_dec x : Decision (fs_name x).
Proof. unfold fs_name. apply _. Defined.

(** Every name in the tree is one that a file system can hold. *)
Inductive valid_names : Fs.node → Prop :=
  | valid_File : valid_names Fs.File
  | valid_Dir entries :
      Forall (λ e, fs_name (fst e) ∧ valid_names (snd e)) entries →
      valid_names (Fs.Dir entries).

(** A place whose surroundings hold valid names only. *)
Definition valid_loc (l : Fs.loc) : Prop :=
  valid_names (Fs.here l) ∧ Forall valid_names (Fs.above l).

(** The strings that [PurePath.suffix] can return: the empty string, or a
    dot followed by a non-empty string without a dot. *)
Definition suffix_shaped (x : string) : bool :=
  match x with
  | EmptyString => true
  | String a t =>
      Ascii.eqb a "." && Str.nonempty t && negb (Str.contains "." t)
  end.

(* ================================================================== *)
(** * Properties *)

(** ** The error monad *)

Section result_lemmas.
Context {A B : Type}.
Implicit Types (f : A → result B) (l : list A).

Lemma mapM_result_cons f x l :
  mapM f (x :: l) = f x ≫= λ y, mapM f l ≫= λ ys, mret (y :: ys).
Proof. reflexivity. Qed.

Lemma mapM_result_Forall2 f l ys :
  mapM f l = inr ys ↔ Forall2 (λ x y, f x = inr y) l ys.
Proof.
  revert ys. induction l as [|x l IH]; intros ys.
  - split; [intros [= <-]; constructor | by inversion 1].
  - rewrite mapM_result_cons.
    destruct (f x) as [e|y] eqn:Hx; cbn.
    { split; [done | inversion 1; congruence]. }
    destruct (mapM f l) as [e|ys'] eqn:Hl; cbn.
    + split; [done|]. inversion 1 as [|???? Hy Hr]; subst.
      apply IH in Hr. congruence.
    + split.
      * intros [= <-]. constructor; [done | by apply IH].
      * inversion 1 as [|???? Hy Hr]; subst. apply IH in Hr.
        rewrite Hx in Hy. by simplify_eq.
Qed.

Lemma mapM_result_inr f (g : A → B) l :
  (∀ x, x ∈ l → f x = inr (g x)) → mapM f l = inr (g <$> l).
Proof.
  intros Hf. apply mapM_result_Forall2, Forall2_fmap_r, Forall_Forall2_diag.
  by apply Forall_forall.
Qed.

Lemma mapM_result_inl f l e :
  mapM f l = inl e → ∃ x, x ∈ l ∧ f x = inl e.
Proof.
  induction l as [|x l IH]; [done|]. rewrite mapM_result_cons.
  destruct (f x) as [e'|y] eqn:Hx; cbn.
  - intros [= ->]. exists x. split; [left | done].
  - destruct (mapM f l) as [e'|ys] eqn:Hl; cbn; [|done].
    intros [= ->]. destruct (IH eq_refl) as (z & Hz & Hfz).
    exists z. split; [by right | done].
Qed.

Lemma mapM_result_is_inr f l :
  (∀ x, x ∈ l → ∃ y, f x = inr y) → ∃ ys, mapM f l = inr ys.
Proof.
  intros Hf. destruct (mapM f l) as [e|ys] eqn:Hl; [|by eexists].
  apply mapM_result_inl in Hl as (x & Hx & Hfx).
  destruct (Hf x Hx) as [y Hy]. congruence.
Qed.

Lemma mapM_result_not_inr f l x e ys :
  x ∈ l → f x = inl e → mapM f l ≠ inr ys.
Proof.
  intros Hx Hfx Hl. apply mapM_result_Forall2 in Hl.
  apply list_elem_of_lookup in Hx as [i Hi].
  destruct (Forall2_lookup_l _ _ _ _ _ Hl Hi) as (y & _ & Hy). congruence.
Qed.

End result_lemmas.

(** ** Lists *)

Lemma filter_bool_sublist {A} (f : A → bool) (l : list A) :
  List.filter f l `sublist_of` l.
Proof.
  induction l as [|x l IH]; cbn; [done|].
  destruct (f x); by constructor.
Qed.

Lemma filter_bool_idemp {A} (f : A → bool) (l : list A) :
  List.filter f (List.filter f l) = List.filter f l.
Proof.
  induction l as [|x l IH]; cbn; [done|].
  destruct (f x) eqn:Hx; cbn; rewrite ?Hx, IH; done.
Qed.

Lemma filter_bool_decide {A} (f : A → bool) (P : A → Prop)
    `{!∀ x, Decision (P x)} (l : list A) :
  (∀ x, x ∈ l → f x = true ↔ P x) → List.filter f l = filter P l.
Proof.
  induction l as [|x l IH]; intros Hf; [done|].
  rewrite filter_cons, <- IH by (intros y Hy; apply Hf; by right).
  cbn [List.filter]. destruct (Hf x) as [H1 H2]; [left|].
  destruct (f x), (decide (P x)); intuition congruence.
Qed.

(** ** Strings *)

Lemma nonempty_true s : Str.nonempty s = true ↔ s ≠ "".
Proof.
  unfold Str.nonempty. rewrite negb_true_iff. apply String.eqb_neq.
Qed.

Lemma nonempty_false s : Str.nonempty s = false ↔ s = "".
Proof.
  unfold Str.nonempty. rewrite negb_false_iff. apply String.eqb_eq.
Qed.

Lemma contains_app c s t :
  Str.contains c (s +:+ t) = Str.contains c s || Str.contains c t.
Proof.
  induction s as [|a s IH]; simpl; [done|]. by rewrite IH, orb_assoc.
Qed.

Lemma contains_take c n s :
  Str.contains c s = false → Str.contains c (Str.take n s) = false.
Proof.
  revert s. induction n as [|n IH]; intros [|a s]; cbn; try done.
  intros [-> Hs]%orb_false_elim. cbn. by apply IH.
Qed.

Lemma split_not_nil c s : Str.split c s ≠ [].
Proof.
  destruct s as [|a s]; cbn; [done|].
  destruct (Ascii.eqb a c); [done|]. by destruct (Str.split c s).
Qed.

Lemma split_sepfree c s x : x ∈ Str.split c s → Str.contains c x = false.
Proof.
  revert x. induction s as [|a s IH]; intros x; cbn.
  - by intros ->%list_elem_of_singleton.
  - destruct (Ascii.eqb a c) eqn:Ha.
    + intros [->|Hx]%elem_of_cons; [done | by apply IH].
    + destruct (Str.split c s) as [|w ws] eqn:Hs.
      { by destruct (split_not_nil c s). }
      intros [->|Hx]%elem_of_cons.
      * cbn. rewrite Ha. apply IH. left.
      * apply IH. by right.
Qed.

(** ** Parsing of paths *)

Lemma keep_wf x : Str.contains sep x = false → keep x = true → wf_component x.
Proof.
  unfold keep. intros Hx [Hn Hd%negb_true_iff]%andb_true_iff.
  repeat split; [by apply nonempty_true | done | by apply String.eqb_neq].
Qed.

Lemma wf_keep x : wf_component x → keep x = true.
Proof.
  intros (Hn & _ & Hd). unfold keep. apply andb_true_iff. split.
  - by apply nonempty_true.
  - by apply negb_true_iff, String.eqb_neq.
Qed.

Lemma rel_components_wf rel : Forall wf_component (rel_components rel).
Proof.
  unfold rel_components. destruct (Str.contains sep rel) eqn:Hc.
  - apply Forall_forall. intros x [Hx Hk]%list_elem_of_In%filter_In.
    apply keep_wf; [|done]. eapply split_sepfree. by apply list_elem_of_In.
  - fold (keep rel). destruct (keep rel) eqn:Hk; [|constructor].
    constructor; [by apply keep_wf | constructor].
Qed.

Lemma rel_components_sepfree x :
  Str.contains sep x = false →
  rel_components x = if keep x then [x] else [].
Proof. unfold rel_components, keep. by intros ->. Qed.

Lemma splitroot_sepfree x : Str.contains sep x = false → splitroot x = ("", x).
Proof.
  destruct x as [|a x]; cbn; [done|].
  intros [-> _]%orb_false_elim. done.
Qed.

Lemma parse_rev_sepfree it :
  Forall (λ x, Str.contains sep x = false) it →
  parse_rev it = ("", List.filter keep (rev it)).
Proof.
  induction 1 as [|x it Hx _ IH]; [done|]. cbn [parse_rev rev].
  rewrite List.filter_app. cbn [List.filter].
  destruct (Str.nonempty x) eqn:Hn.
  - rewrite (splitroot_sepfree x Hx). cbn. rewrite IH.
    rewrite (rel_components_sepfree x Hx). by destruct (keep x).
  - rewrite IH. unfold keep. rewrite Hn. cbn. by rewrite app_nil_r.
Qed.

Lemma parse_parts_sepfree parts :
  Forall (λ x, Str.contains sep x = false) parts →
  parse_parts parts = ("", List.filter keep parts).
Proof.
  intros H. unfold parse_parts. rewrite parse_rev_sepfree.
  - by rewrite rev_involutive.
  - apply Forall_forall. intros x Hx%list_elem_of_In%in_rev%list_elem_of_In.
    by eapply Forall_forall in H.
Qed.

Lemma filter_keep_wf parts :
  Forall wf_component parts → List.filter keep parts = parts.
Proof.
  induction 1 as [|x l Hx _ IH]; cbn; [done|]. by rewrite (wf_keep x Hx), IH.
Qed.

Lemma wf_component_sepfree parts :
  Forall wf_component parts → Forall (λ x, Str.contains sep x = false) parts.
Proof. intros H. eapply Forall_impl; [done|]. by intros x (_ & ? & _). Qed.

Lemma parse_parts_wf parts :
  Forall wf_component parts → parse_parts parts = ("", parts).
Proof.
  intros H. rewrite parse_parts_sepfree by by apply wf_component_sepfree.
  by rewrite filter_keep_wf.
Qed.

Lemma splitroot_root part :
  fst (splitroot part) = "" ∨ fst (splitroot part) = "/"
  ∨ fst (splitroot part) = "//".
Proof.
  destruct part as [|a s]; cbn; [by left|].
  destruct (Ascii.eqb a sep); [|by left].
  match goal with |- context [if ?b then _ else _] => destruct b end; cbn; auto.
Qed.

(** What [Path(s)] is, for any string. *)
Lemma Path_cases s :
  (∃ comps, Path s = mkPath "" comps ∧ Forall wf_component comps)
  ∨ (∃ root comps, (root = "/" ∨ root = "//")
       ∧ Path s = mkPath root (root :: comps) ∧ Forall wf_component comps).
Proof.
  unfold Path, PathOf, _parse_args, parse_parts. cbn.
  destruct (Str.nonempty s) eqn:Hs; [|left; exists []; by split].
  destruct (splitroot s) as [root rel] eqn:Hr.
  pose proof (splitroot_root s) as Hroot. rewrite Hr in Hroot. cbn in Hroot.
  destruct (Str.nonempty root) eqn:Hn.
  - right. exists root, (rel_components rel).
    split; [|split; [done | apply rel_components_wf]].
    destruct Hroot as [->|[->| ->]]; [done | by left | by right].
  - left. apply nonempty_false in Hn as ->. exists (rel_components rel).
    split; [done | apply rel_components_wf].
Qed.

Lemma Path_wf s : wf_path (Path s).
Proof.
  destruct (Path_cases s) as [(comps & -> & H)|(root & comps & Hr & -> & H)].
  - by left.
  - right. by repeat split.
Qed.

Lemma Path_dot : Path "." = mkPath "" [].
Proof. reflexivity. Qed.

(** ** Normalisation of a SubdirSpec (line 49) *)

Lemma append_empty_r s : s +:+ "" = s.
Proof.
  induction s as [|a s IH]; [done|].
  change (String a s +:+ "") with (String a (s +:+ "")). by rewrite IH.
Qed.

Lemma with_suffix_empty p :
  with_suffix p "" =
    if Str.nonempty (name p)
    then inr (mkPath (_root p) (removelast (_parts p) ++ [stem_of p]))
    else inl ValueError.
Proof.
  unfold with_suffix, stem_of. cbn [Str.contains Str.nonempty String.eqb orb andb negb].
  rewrite !append_empty_r.
  destruct (Str.nonempty (name p)); cbn [negb]; [|done].
  by destruct (Str.nonempty (suffix p)).
Qed.

Lemma relative_to_dot q :
  relative_to q [ArgStr "."] =
    if Str.nonempty (_root q) then inl ValueError
    else inr (mkPath "" (_parts q)).
Proof.
  unfold relative_to.
  change (_parse_args [ArgStr "."]) with ("", @nil string).
  cbn -[Str.nonempty]. change (Str.nonempty "") with false. cbn -[Str.nonempty].
  by destruct (Str.nonempty (_root q)).
Qed.

Lemma normalize_subdir_unfold s :
  normalize_subdir s =
    if Str.nonempty (name (Path s)) then
      if Str.nonempty (_root (Path s)) then inl ValueError
      else inr (mkPath "" (removelast (_parts (Path s)) ++ [stem_of (Path s)]))
    else inl ValueError.
Proof.
  unfold normalize_subdir. rewrite with_suffix_empty.
  destruct (Str.nonempty (name (Path s))); [|done].
  unfold mbind, result_bind. by rewrite relative_to_dot.
Qed.

Lemma normalize_malformed s :
  malformed s → normalize_subdir s = inl ValueError.
Proof.
  rewrite normalize_subdir_unfold. intros [Hr|Hn].
  - apply (proj2 (nonempty_true _)) in Hr. rewrite Hr.
    by destruct (Str.nonempty (name (Path s))).
  - apply (proj2 (nonempty_false _)) in Hn. by rewrite Hn.
Qed.

Lemma normalize_wellformed s :
  ¬ malformed s →
  normalize_subdir s =
    inr (mkPath "" (removelast (_parts (Path s)) ++ [stem_of (Path s)])).
Proof.
  intros Hm. rewrite normalize_subdir_unfold.
  destruct (Str.nonempty (name (Path s))) eqn:Hn.
  - destruct (Str.nonempty (_root (Path s))) eqn:Hr; [|done].
    destruct Hm. left. by apply nonempty_true.
  - destruct Hm. right. by apply nonempty_false.
Qed.

Lemma normalize_subdir_error s e : normalize_subdir s = inl e → e = ValueError.
Proof.
  rewrite normalize_subdir_unfold.
  repeat match goal with |- context [if ?b then _ else _] => destruct b end;
    congruence.
Qed.

Lemma name_relative comps : name (mkPath "" comps) = List.last comps "".
Proof. unfold name. cbn [_root _parts Str.nonempty String.eqb negb]. by destruct comps. Qed.

Lemma last_in {A} (l : list A) d : l ≠ [] → List.last l d ∈ l.
Proof.
  induction l as [|x [|y l] IH]; [done | left |].
  intros _. right. by apply IH.
Qed.

Lemma removelast_subset {A} (l : list A) x : x ∈ removelast l → x ∈ l.
Proof.
  induction l as [|y [|z l] IH]; cbn [removelast]; [done | by inversion 1 |].
  intros [->|H]%elem_of_cons; [left | right; by apply IH].
Qed.

Lemma stem_sepfree p :
  Str.contains sep (name p) = false → Str.contains sep (stem_of p) = false.
Proof.
  intros H. unfold stem_of. destruct (Str.nonempty _); [|done].
  by apply contains_take.
Qed.

(** A normalised entry has no root and no separator inside a component. *)
Lemma normalize_subdir_shape s d :
  normalize_subdir s = inr d →
  _root d = "" ∧ Forall (λ x, Str.contains sep x = false) (_parts d).
Proof.
  destruct (decide (malformed s)) as [Hm|Hm].
  { by rewrite normalize_malformed. }
  rewrite (normalize_wellformed s Hm). intros [= <-]. split; [done|]. cbn.
  destruct (Path_cases s) as [(comps & Hs & Hwf)|(root & comps & Hr & Hs & _)].
  - rewrite Hs. cbn. apply wf_component_sepfree in Hwf.
    apply Forall_app. split.
    + apply Forall_forall. intros x Hx%removelast_subset.
      by eapply Forall_forall in Hwf.
    + constructor; [|constructor]. apply stem_sepfree. rewrite name_relative.
      destruct comps as [|c comps]; [done|].
      eapply Forall_forall in Hwf; [done|]. by apply last_in.
  - destruct Hm. left. rewrite Hs. cbn. by destruct Hr as [-> | ->].
Qed.

Lemma allowed_dirs_shape S ds d :
  allowed_dirs_of S = inr ds → d ∈ ds →
  _root d = "" ∧ Forall (λ x, Str.contains sep x = false) (_parts d).
Proof.
  intros HS Hd. apply mapM_result_Forall2 in HS.
  apply list_elem_of_lookup in Hd as [i Hi].
  destruct (Forall2_lookup_r _ _ _ _ _ HS Hi) as (s & _ & Hs).
  by eapply normalize_subdir_shape.
Qed.

(** The allow-list is rejected exactly when one entry is malformed. *)
Lemma allowed_dirs_malformed S :
  Exists malformed S → allowed_dirs_of S = inl ValueError.
Proof.
  intros (s & Hs & Hm)%Exists_exists.
  destruct (allowed_dirs_of S) as [e|ds] eqn:HS.
  - apply mapM_result_inl in HS as (x & _ & Hx).
    by apply normalize_subdir_error in Hx as ->.
  - destruct (mapM_result_not_inr normalize_subdir S s ValueError ds); auto.
    by apply normalize_malformed.
Qed.

Lemma allowed_dirs_wellformed S :
  ¬ Exists malformed S → ∃ ds, allowed_dirs_of S = inr ds.
Proof.
  intros HS. apply mapM_result_is_inr. intros s Hs. eexists.
  apply normalize_wellformed. intros Hm. apply HS, Exists_exists. eauto.
Qed.

(** ** The tree-membership test (lines 51-54) *)

Lemma segments_unfold d : segments d = snd (parse_parts (_parts d)).
Proof. unfold segments, _parse_args. cbn. by rewrite app_nil_r. Qed.

Lemma prefix_take {A} (l k : list A) :
  l `prefix_of` k ↔ take (length l) k = l.
Proof.
  split.
  - intros [k' ->]. by rewrite take_app_length.
  - intros H. exists (drop (length l) k).
    rewrite <- H at 1. by rewrite take_drop.
Qed.

Lemma is_relative_to_prefix p d :
  _root p = "" →
  Forall (λ x, Str.contains sep x = false) (_parts d) →
  is_relative_to p [ArgPath d] = true ↔ segments d `prefix_of` _parts p.
Proof.
  intros Hp Hd. rewrite segments_unfold.
  unfold is_relative_to, relative_to, _parse_args. cbn [List.map concat].
  rewrite app_nil_r, Hp, (parse_parts_sepfree _ Hd).
  cbn -[Nat.eqb]. set (segs := List.filter keep (_parts d)).
  destruct (length segs =? 0) eqn:Hn.
  - apply Nat.eqb_eq, nil_length_inv in Hn as ->. split; [|done].
    intros _. apply prefix_nil.
  - rewrite prefix_take. case_bool_decide as Ht; cbn; split; congruence.
Qed.

Lemma parent_relative p :
  _root p = "" → parent p = mkPath "" (removelast (_parts p)).
Proof.
  intros Hp. unfold parent. rewrite Hp. cbn. by rewrite andb_false_r.
Qed.

Lemma wf_rel_parent p : wf_rel p → wf_rel (parent p).
Proof.
  intros [Hp Hwf]. rewrite (parent_relative p Hp). split; [done|]. cbn.
  apply Forall_forall. intros x Hx%removelast_subset.
  by eapply Forall_forall in Hwf.
Qed.

Lemma segments_wf_rel p : wf_rel p → segments p = _parts p.
Proof.
  intros [_ Hwf]. by rewrite segments_unfold, (parse_parts_wf _ Hwf).
Qed.

Lemma path_eqb_relative p q :
  _root p = "" → _root q = "" → path_eqb p q = true ↔ p = q.
Proof.
  intros Hp Hq. unfold path_eqb. rewrite bool_decide_eq_true.
  destruct p, q; cbn in *; subst. split; congruence.
Qed.

Lemma in_allowed_tree_spec S ds p :
  allowed_dirs_of S = inr ds → wf_rel p →
  _in_allowed_tree ds p = true
  ↔ Exists (λ d, parent p = d ∨ is_under (parent p) d) ds.
Proof.
  intros HS Hp. pose proof (wf_rel_parent p Hp) as Hpar.
  unfold _in_allowed_tree. rewrite existsb_exists, Exists_exists.
  split; intros (d & Hd & H); exists d.
  - apply list_elem_of_In in Hd. split; [done|].
    destruct (allowed_dirs_shape S ds d HS Hd) as [Hr Hsep].
    apply orb_true_iff in H as [H|H].
    + left. by apply path_eqb_relative; [apply Hpar| |].
    + right. unfold is_under. rewrite (segments_wf_rel _ Hpar).
      by apply is_relative_to_prefix; [apply Hpar| |].
  - split; [by apply list_elem_of_In|].
    destruct (allowed_dirs_shape S ds d HS Hd) as [Hr Hsep].
    apply orb_true_iff. destruct H as [H|H].
    + left. by apply path_eqb_relative; [apply Hpar| |].
    + right. unfold is_under in H. rewrite (segments_wf_rel _ Hpar) in H.
      by apply is_relative_to_prefix; [apply Hpar| |].
Qed.

Lemma falsy_cons S : S ≠ [] → falsy (Some S) = false.
Proof. by destruct S. Qed.

Lemma matching_subdirs_allowed all_rel S ds include_root :
  S ≠ [] → allowed_dirs_of S = inr ds →
  matching_subdirs all_rel (Some S) include_root =
    inr (List.filter
           (λ p, (include_root && path_eqb (parent p) (Path "."))
                 || _in_allowed_tree ds p) all_rel).
Proof.
  intros HS Hds. unfold matching_subdirs. rewrite (falsy_cons S HS).
  change (default [] (Some S)) with S. by rewrite Hds.
Qed.

(** ** SubtreeFilter *)




(** C6. Whatever the allow-list (absent and empty included) and the flag,
    the list the filter returns is a subsequence of its input: elements of
    the input, in their order, none more often than there. *)
Theorem matching_subdirs_subsequence (all_rel : list PurePath)
    (include_subdirs : option (list string)) (include_root : bool)
    (out : list PurePath) :
  matching_subdirs all_rel include_subdirs include_root = inr out →
  out `sublist_of` all_rel.
Proof.
  unfold matching_subdirs. destruct (falsy include_subdirs).
  - intros [= <-]. destruct include_root; [done | apply filter_bool_sublist].
  - destruct (allowed_dirs_of _) as [e|ds]; [done|].
    intros [= <-]. apply filter_bool_sublist.
Qed.

Lemma matching_subdirs_subsequence_witness :
  Path <$> ["Cat1/x.md"; "Cat1/Sub/y.md"] `sublist_of` scenario_B.
Proof.
  apply (matching_subdirs_subsequence scenario_B (Some ["Cat1"]) false).
  reflexivity.
Defined.

(** C7. Filtering the output of the filter again, with the same allow-list
    and flag, changes nothing; when the allow-list is rejected, it is
    rejected both times. *)
Theorem matching_subdirs_idempotent (all_rel : list PurePath)
    (include_subdirs : option (list string)) (include_root : bool) :
  matching_subdirs all_rel include_subdirs include_root
    ≫= (λ out, matching_subdirs out include_subdirs include_root)
  = matching_subdirs all_rel include_subdirs include_root.
Proof.
  unfold matching_subdirs. destruct (falsy include_subdirs).
  - unfold mbind, mret, result_bind, result_ret.
    destruct include_root; [done|]. by rewrite filter_bool_idemp.
  - destruct (allowed_dirs_of _) as [e|ds]; [done|].
    unfold mbind, mret, result_bind, result_ret.
    by rewrite filter_bool_idemp.
Qed.

(** C4, as the code has it. An allow-list with an entry that denotes the
    root itself (["."], [""], ["./"]) is not filtered with at all: the root has
    no name whose suffix could be stripped, and the call raises
    [ValueError] whatever [include_root] is. *)
Theorem matching_subdirs_root_entry (all_rel : list PurePath)
    (S : list string) (include_root : bool) (s : string) :
  s ∈ S → Path s = Path "." →
  matching_subdirs all_rel (Some S) include_root = inl ValueError.
Proof.
  intros Hs Hroot. unfold matching_subdirs.
  rewrite falsy_cons by (intros ->; by apply not_elem_of_nil in Hs).
  change (default [] (Some S)) with S.
  rewrite allowed_dirs_malformed; [done|].
  apply Exists_exists. exists s. split; [done|]. right. by rewrite Hroot.
Qed.

Lemma matching_subdirs_root_entry_witness :
  matching_subdirs scenario_B (Some ["Cat1"; "."]) true = inl ValueError.
Proof.
  apply (matching_subdirs_root_entry scenario_B ["Cat1"; "."] true ".").
  - compute_done.
  - reflexivity.
Defined.

(** C4 as stated fails: with the allow-list [["."]] and [include_root] set,
    the root-level file is not kept through the flag; no list is returned. *)
Lemma matching_subdirs_root_entry_counterexample :
  ¬ ∃ out, matching_subdirs [Path "root.md"] (Some ["."]) true = inr out
           ∧ Path "root.md" ∈ out.
Proof. intros (out & H & _). vm_compute in H. discriminate. Qed.

(** C5, as the code has it. The filter raises [ValueError] exactly when an
    entry of the allow-list is absolute or has an empty final name, and
    returns a list otherwise; an entry with [..] segments is none of the two
    and is taken as it is written. *)
Theorem matching_subdirs_rejects (all_rel : list PurePath) (S : list string)
    (include_root : bool) :
  (matching_subdirs all_rel (Some S) include_root = inl ValueError
     ↔ Exists malformed S)
  ∧ ((∃ out, matching_subdirs all_rel (Some S) include_root = inr out)
     ↔ ¬ Exists malformed S).
Proof.
  assert (Exists malformed S →
          matching_subdirs all_rel (Some S) include_root = inl ValueError) as H1.
  { intros HS. unfold matching_subdirs. rewrite falsy_cons.
    - change (default [] (Some S)) with S.
      by rewrite allowed_dirs_malformed.
    - intros ->. by apply Exists_nil in HS. }
  assert (¬ Exists malformed S →
          ∃ out, matching_subdirs all_rel (Some S) include_root = inr out) as H2.
  { intros HS. unfold matching_subdirs. destruct (falsy (Some S)); [by eexists|].
    change (default [] (Some S)) with S.
    destruct (allowed_dirs_wellformed S HS) as [ds ->]. by eexists. }
  destruct (decide (Exists malformed S)) as [HS|HS].
  - rewrite (H1 HS). split; [done|]. split; [by intros [? ?] | done].
  - destruct (H2 HS) as [out ->]. split; [done|]. split; [done | by eexists].
Qed.

(** C5 as stated fails: an entry that leaves the root through [..] is not
    rejected. *)
Lemma matching_subdirs_rejects_counterexample :
  matching_subdirs scenario_B (Some ["../outside"]) false = inr [].
Proof. reflexivity. Qed.

(** ** The array operations *)

Lemma unique_counts (ar : list string) :
  let '(_, inverse_ix, counts) := Numpy.unique ar in
  Numpy.take counts inverse_ix = inr ((λ x, Numpy.count x ar) <$> ar).
Proof.
  unfold Numpy.unique, Numpy.take.
  set (u := remove_dups (merge_sort String.le ar)).
  apply mapM_result_Forall2.
  change (List.map ?f ?l) with (f <$> l).
  apply Forall2_fmap, Forall_Forall2_diag, Forall_forall. intros x Hx.
  assert (x ∈ u) as Hu.
  { apply elem_of_remove_dups. by rewrite merge_sort_Permutation. }
  destruct (list_find_elem_of (λ y, y = x) u x Hu eq_refl) as [[i y] Hf].
  unfold Numpy.index_of. rewrite Hf. cbn.
  apply list_find_Some in Hf as (Hi & -> & _).
  by rewrite list_lookup_fmap, Hi.
Qed.

Lemma elem_of_where_ mask i :
  i ∈ Numpy.where_ mask ↔ mask !! i = Some true.
Proof.
  unfold Numpy.where_. rewrite list_elem_of_In, filter_In, <- list_elem_of_In.
  rewrite elem_of_seq. split.
  - intros [_ H]. destruct (mask !! i) as [[]|]; done.
  - intros H. split; [|by rewrite H].
    apply lookup_lt_Some in H. lia.
Qed.

Lemma take_in_range {A} (d : A) (arr : list A) ix :
  (∀ i, i ∈ ix → i < length arr) →
  Numpy.take arr ix = inr ((λ i, default d (arr !! i)) <$> ix).
Proof.
  intros Hix. apply mapM_result_inr. intros i Hi.
  destruct (lookup_lt_is_Some_2 arr i (Hix i Hi)) as [x ->]. done.
Qed.

Lemma put_fold {A} (g : nat → A) ix : ∀ arr : list A,
  (∀ i, i ∈ ix → i < length arr) →
  ∃ arr', foldl Numpy.put1 (inr arr) (zip ix (g <$> ix)) = inr arr'
          ∧ length arr' = length arr
          ∧ ∀ j, arr' !! j = if decide (j ∈ ix) then Some (g j) else arr !! j.
Proof.
  induction ix as [|i ix IH]; intros arr Hix.
  - exists arr. split_and!; [done..|]. intros j.
    by rewrite decide_False by apply not_elem_of_nil.
  - assert (i < length arr) as Hi by (apply Hix; left).
    cbn [fmap list_fmap zip zip_with foldl]. unfold Numpy.put1 at 2.
    cbn [mbind result_bind fst snd].
    rewrite (proj2 (Nat.ltb_lt _ _) Hi). cbn [mret result_ret].
    destruct (IH (<[i:=g i]> arr)) as (arr' & Hf & Hlen & Hlk).
    { intros j Hj. rewrite length_insert. apply Hix. by right. }
    exists arr'. split_and!; [done | by rewrite Hlen, length_insert |].
    intros j. rewrite Hlk. destruct (decide (j = i)) as [->|Hne].
    + rewrite (decide_True (P := i ∈ i :: ix)) by left.
      case_decide; [done|]. by rewrite list_lookup_insert_eq.
    + rewrite list_lookup_insert_ne by done.
      case_decide as H1; case_decide as H2; try done.
      * destruct H2. by right.
      * apply elem_of_cons in H2 as [?|?]; done.
Qed.

Lemma put_in_range {A} (g : nat → A) (arr : list A) ix :
  (∀ i, i ∈ ix → i < length arr) →
  ∃ arr', Numpy.put arr ix (g <$> ix) = inr arr'
          ∧ length arr' = length arr
          ∧ ∀ j, arr' !! j = if decide (j ∈ ix) then Some (g j) else arr !! j.
Proof.
  intros Hix. unfold Numpy.put.
  assert (match g <$> ix with
          | [v] => replicate (length ix) v
          | _ => g <$> ix
          end = g <$> ix) as ->.
  { by destruct ix as [|? [|? ?]]. }
  rewrite length_fmap, Nat.eqb_refl. by apply put_fold.
Qed.

(** ** The key of every position (lines 72-86) *)

Lemma count_multiplicity x (paths : list PurePath) :
  Numpy.count x (List.map name paths) = multiplicity x paths.
Proof.
  unfold Numpy.count, multiplicity.
  induction paths as [|p paths IH]; [done|].
  cbn [List.map List.filter]. rewrite filter_cons.
  destruct (String.eqb_spec x (name p)) as [->|Hne].
  - rewrite decide_True by done. cbn. by rewrite IH.
  - rewrite decide_False by congruence. done.
Qed.

Lemma shortest_paths_arr_array (paths : list PurePath) :
  shortest_paths_arr paths = inr (array_key paths <$> paths).
Proof.
  unfold shortest_paths_arr.
  set (names := Numpy.array (List.map name paths)).
  set (strs := Numpy.array (List.map str paths)).
  pose proof (unique_counts names) as Hu.
  destruct (Numpy.unique names) as [[u inverse_ix] counts].
  rewrite Hu. cbn [mbind result_bind].
  set (mask := List.map (λ c, 1 <? c) _).
  assert (length names = length paths) as Hnames
    by (unfold names, Numpy.array; by rewrite !length_map).
  assert (length strs = length paths) as Hstrs
    by (unfold strs, Numpy.array; by rewrite !length_map).
  assert (∀ i, i ∈ Numpy.where_ mask → i < length paths) as Hrange.
  { intros i Hi%elem_of_where_%lookup_lt_Some.
    subst mask. change (List.map ?f ?l) with (f <$> l) in Hi.
    rewrite !length_fmap in Hi. lia. }
  rewrite (take_in_range "" strs) by (rewrite Hstrs; apply Hrange).
  cbn [mbind result_bind].
  destruct (put_in_range (λ i, default "" (strs !! i))
              (List.map name paths) (Numpy.where_ mask))
    as (arr' & -> & Hlen & Hlk).
  { by rewrite length_map. }
  f_equal. apply list_eq. intros j. rewrite Hlk, list_lookup_fmap.
  unfold strs, names, Numpy.array in *.
  change (List.map ?f ?l) with (f <$> l) in *. rewrite !list_lookup_fmap.
  destruct (paths !! j) as [p|] eqn:Hp; cbn.
  - assert (j ∈ Numpy.where_ mask
            ↔ 1 < Numpy.count (Str.rstrip_nul (name p))
                    (Str.rstrip_nul <$> (name <$> paths))) as Hj.
    { rewrite elem_of_where_. subst mask.
      rewrite !list_lookup_fmap, Hp. cbn -[Nat.ltb].
      rewrite <- Nat.ltb_lt.
      split; [intros [= H]; exact H | intros H; f_equal; exact H]. }
    unfold array_key, Numpy.array.
    change (List.map ?f ?l) with (f <$> l). do 2 case_decide; tauto.
  - rewrite decide_False; [done|].
    intros Hj%Hrange. apply lookup_ge_None in Hp. lia.
Qed.

Lemma resolver_array (paths : list PurePath) :
  _get_shortest_path_by_filename paths
  = inr (dict_of (zip (array_key paths <$> paths) paths)).
Proof.
  unfold _get_shortest_path_by_filename.
  by rewrite shortest_paths_arr_array.
Qed.

(** ** Strings without a NUL character at the end *)

Lemma unpadded_cons a s :
  unpadded (String a s) ↔ unpadded s ∧ (a = Str.nul → s ≠ "").
Proof.
  unfold unpadded. cbn [Str.rstrip_nul].
  destruct (Ascii.eqb_spec a Str.nul) as [->|Ha]; cbn [andb].
  - destruct (Str.rstrip_nul s) as [|b t] eqn:Hs; cbn.
    + split; [done|]. intros [<- H]. by destruct H.
    + split; [intros [= <-]; by split | intros [-> _]; done].
  - split; [intros [= ->]; by split | intros [-> _]; done].
Qed.

Lemma unpadded_app x c : c ≠ "" → unpadded c → unpadded (x +:+ c).
Proof.
  intros Hne Hc. induction x as [|a x IH]; [done|].
  change (String a x +:+ c) with (String a (x +:+ c)).
  apply unpadded_cons. split; [done|]. intros _.
  destruct x; [done | discriminate].
Qed.

Lemma unpadded_app_inv x c : unpadded (x +:+ c) → unpadded c.
Proof.
  induction x as [|a x IH]; [done|].
  change (String a x +:+ c) with (String a (x +:+ c)).
  intros [H _]%unpadded_cons. by apply IH.
Qed.

Lemma unpadded_nul_free s : Str.contains Str.nul s = false → unpadded s.
Proof.
  induction s as [|a s IH]; [done|]. cbn [Str.contains].
  intros [Ha Hs]%orb_false_elim. apply unpadded_cons. split; [by apply IH|].
  intros ->. by rewrite Ascii.eqb_refl in Ha.
Qed.

Lemma array_unpadded l : Forall unpadded l → Numpy.array l = l.
Proof.
  unfold Numpy.array. induction 1 as [|s l Hs _ IH]; [done|].
  cbn [List.map]. by rewrite Hs, IH.
Qed.

Lemma str_append_assoc x y z : (x +:+ y) +:+ z = x +:+ (y +:+ z).
Proof.
  induction x as [|a x IH]; [done|].
  change (String a x +:+ y) with (String a (x +:+ y)).
  change (String a (x +:+ y) +:+ z) with (String a ((x +:+ y) +:+ z)).
  by rewrite IH.
Qed.

Lemma join_last cs :
  cs ≠ [] → ∃ x, Str.join "/" cs = x +:+ List.last cs "".
Proof.
  induction cs as [|c [|c' rest] IH]; [done | by exists "" |]. intros _.
  destruct IH as [x Hx]; [done|].
  exists (c +:+ "/" +:+ x).
  change (Str.join "/" (c :: c' :: rest))
    with (c +:+ "/" +:+ Str.join "/" (c' :: rest)).
  change (List.last (c :: c' :: rest) "") with (List.last (c' :: rest) "").
  by rewrite Hx, !str_append_assoc.
Qed.

(** The string of a path ends with its name. *)
Lemma str_ends_with_name p : name p ≠ "" → ∃ x, str p = x +:+ name p.
Proof.
  unfold name, str, _format_parsed_parts.
  destruct (Str.nonempty (_root p)) eqn:Hr.
  - destruct (_parts p) as [|c [|c' rest]]; [done..|]. intros _.
    change (length (c :: c' :: rest) =? 1) with false. cbv iota.
    change (List.last (c :: c' :: rest) "") with (List.last (c' :: rest) "").
    destruct (join_last (c' :: rest)) as [x Hx]; [done|].
    cbn [tail]. rewrite Hx. apply nonempty_true in Hr.
    destruct (_root p) as [|a r]; [done|]. exists (String a r +:+ x).
    by rewrite str_append_assoc.
  - destruct (_parts p) as [|c rest] eqn:Hp; [done|].
    change (length (c :: rest) =? 0) with false. cbv iota. intros Hn.
    destruct (join_last (c :: rest)) as [x Hx]; [done|]. rewrite Hx.
    exists x. destruct (x +:+ List.last (c :: rest) "") eqn:Hs; [|done].
    destruct x; [|discriminate]. by destruct Hn.
Qed.

Lemma name_unpadded p : unpadded (str p) → unpadded (name p).
Proof.
  intros Hs. destruct (decide (name p = "")) as [->|Hn]; [done|].
  destruct (str_ends_with_name p Hn) as [x Hx]. rewrite Hx in Hs.
  by eapply unpadded_app_inv.
Qed.

(** Where no path ends with a NUL character, the key is the one of rules 3
    and 4. *)
Lemma array_key_unpadded (paths : list PurePath) p :
  Forall (λ q, unpadded (str q)) paths → p ∈ paths →
  array_key paths p = key_of paths p.
Proof.
  intros Hall Hp. unfold array_key, key_of.
  assert (unpadded (str p)) as Hs by by eapply Forall_forall in Hall.
  rewrite array_unpadded.
  - rewrite Hs, (name_unpadded p Hs), count_multiplicity. done.
  - change (List.map ?f ?l) with (f <$> l). apply Forall_fmap.
    eapply Forall_impl; [done|]. intros q. apply name_unpadded.
Qed.

Lemma shortest_paths_arr_spec (paths : list PurePath) :
  Forall (λ p, unpadded (str p)) paths →
  shortest_paths_arr paths = inr (key_of paths <$> paths).
Proof.
  intros Hall. rewrite shortest_paths_arr_array. f_equal.
  apply list_fmap_ext. intros i p Hp%list_elem_of_lookup_2.
  by apply array_key_unpadded.
Qed.

Lemma resolver_unfold (paths : list PurePath) :
  Forall (λ p, unpadded (str p)) paths →
  _get_shortest_path_by_filename paths
  = inr (dict_of (zip (key_of paths <$> paths) paths)).
Proof.
  intros Hall. unfold _get_shortest_path_by_filename.
  by rewrite shortest_paths_arr_spec.
Qed.

(** ** FilenameResolver *)

(** C2, as the code has it. Where no path of the list ends with a NUL
    character, the resolver gives every position a key: the full
    relative-path string where the bare file name of the position occurs more
    than once in the whole list, the bare file name where it occurs once.
    Names are compared as strings, exactly. *)
Theorem resolver_keys (paths : list PurePath) :
  Forall (λ p, unpadded (str p)) paths →
  ∃ keys, shortest_paths_arr paths = inr keys
    ∧ _get_shortest_path_by_filename paths = inr (dict_of (zip keys paths))
    ∧ length keys = length paths
    ∧ ∀ i p, paths !! i = Some p →
        (1 < multiplicity (name p) paths → keys !! i = Some (str p))
        ∧ (multiplicity (name p) paths = 1 → keys !! i = Some (name p)).
Proof.
  intros Hall. exists (key_of paths <$> paths). split_and!.
  - by apply shortest_paths_arr_spec.
  - by apply resolver_unfold.
  - apply length_fmap.
  - intros i p Hp. rewrite list_lookup_fmap, Hp. cbn. unfold key_of.
    split; intros H; case_decide; (done || lia).
Qed.

Lemma resolver_keys_witness :
  ∃ keys, shortest_paths_arr scenario_A = inr keys
    ∧ _get_shortest_path_by_filename scenario_A
      = inr (dict_of (zip keys scenario_A))
    ∧ length keys = length scenario_A
    ∧ ∀ i p, scenario_A !! i = Some p →
        (1 < multiplicity (name p) scenario_A → keys !! i = Some (str p))
        ∧ (multiplicity (name p) scenario_A = 1 → keys !! i = Some (name p)).
Proof.
  apply (resolver_keys scenario_A). compute_done.
Defined.

(** C2 as stated fails on names that end with a NUL character: the array
    of names holds both names of [nul_named] as the one string ["a"], so the
    first position, whose bare file name occurs once, gets the string of its
    path read back from an array, without the NUL character, and not its
    bare file name. *)
Lemma resolver_keys_counterexample :
  ∃ p keys, nul_named !! 0 = Some p
    ∧ multiplicity (name p) nul_named = 1
    ∧ shortest_paths_arr nul_named = inr keys
    ∧ keys = ["a"; "a"]
    ∧ keys !! 0 ≠ Some (name p).
Proof.
  eexists _, _. split_and!; [reflexivity | reflexivity | | reflexivity |].
  - rewrite shortest_paths_arr_array. reflexivity.
  - discriminate.
Qed.

(** C9. On the empty list the resolver returns the empty mapping, and on
    every list it returns a mapping: no input makes it raise. *)
Theorem resolver_total :
  _get_shortest_path_by_filename [] = inr ∅
  ∧ ∀ paths, ∃ m, _get_shortest_path_by_filename paths = inr m.
Proof.
  split; [reflexivity|]. intros paths. eexists. apply resolver_array.
Qed.

(** ** The string of a path determines the path *)

Lemma join_cons c rest : Str.join "/" (c :: rest) = c +:+ tail_str rest.
Proof. destruct rest; cbn [Str.join tail_str]; [by rewrite append_empty_r | done]. Qed.

Lemma sepfree_head a s : Str.contains sep (String a s) = false → a ≠ sep.
Proof. cbn. intros [H _]%orb_false_elim. by apply Ascii.eqb_neq. Qed.

Lemma sepfree_app_inj c c' x x' :
  Str.contains sep c = false → Str.contains sep c' = false →
  (x = "" ∨ ∃ y, x = String sep y) → (x' = "" ∨ ∃ y, x' = String sep y) →
  c +:+ x = c' +:+ x' → c = c' ∧ x = x'.
Proof.
  revert c'. induction c as [|a c IH]; intros [|a' c'] Hc Hc' Hx Hx'.
  - done.
  - change ("" +:+ x) with x. change (String a' c' +:+ x') with (String a' (c' +:+ x')).
    intros ->. destruct Hx as [?|[y [= -> _]]]; [done|].
    by apply sepfree_head in Hc'.
  - change ("" +:+ x') with x'. change (String a c +:+ x) with (String a (c +:+ x)).
    intros <-. destruct Hx' as [?|[y [= -> _]]]; [done|].
    by apply sepfree_head in Hc.
  - change (String a c +:+ x) with (String a (c +:+ x)).
    change (String a' c' +:+ x') with (String a' (c' +:+ x')).
    intros [= -> H]. cbn in Hc, Hc'.
    apply orb_false_elim in Hc as [_ Hc]. apply orb_false_elim in Hc' as [_ Hc'].
    destruct (IH c' Hc Hc' Hx Hx' H) as [-> ->]. done.
Qed.

Lemma tail_str_cases rest : tail_str rest = "" ∨ ∃ y, tail_str rest = String sep y.
Proof. destruct rest; [by left | right; by eexists]. Qed.

Lemma join_inj cs cs' :
  Forall wf_component cs → Forall wf_component cs' →
  Str.join "/" cs = Str.join "/" cs' → cs = cs'.
Proof.
  intros Hcs. revert cs'. induction Hcs as [|c rest (Hn & Hc & _) Hrest IH];
    intros cs' Hcs'; destruct Hcs' as [|c' rest' (Hn' & Hc' & _) Hrest'].
  - done.
  - rewrite join_cons. destruct c'; [done|]. discriminate.
  - rewrite join_cons. destruct c; [done|]. discriminate.
  - rewrite !join_cons. intros H.
    destruct (sepfree_app_inj c c' _ _ Hc Hc' (tail_str_cases rest)
                (tail_str_cases rest') H) as [-> Ht].
    f_equal. destruct rest, rest'; try done.
    injection Ht as Ht. by apply IH.
Qed.

Lemma join_head c rest :
  wf_component c → ∃ a s, Str.join "/" (c :: rest) = String a s ∧ a ≠ sep.
Proof.
  intros (Hn & Hc & _). rewrite join_cons. destruct c as [|a c]; [done|].
  exists a, (c +:+ tail_str rest). split; [done | by eapply sepfree_head].
Qed.

Lemma join_not_dot cs : Forall wf_component cs → Str.join "/" cs ≠ ".".
Proof.
  destruct 1 as [|c rest (Hn & _ & Hd) _]; [done|]. rewrite join_cons.
  destruct c as [|a c]; [done|].
  change (String a c +:+ ?t) with (String a (c +:+ t)).
  intros [= -> H]. destruct c; [done | discriminate].
Qed.

Lemma str_relative p :
  wf_rel p →
  str p = match _parts p with
          | [] => "."
          | _ => Str.join "/" (_parts p)
          end.
Proof.
  intros [Hr Hwf]. unfold str, _format_parsed_parts. rewrite Hr.
  change (Str.nonempty "") with false. cbv iota.
  destruct Hwf as [|c rest Hc _]; [done|].
  destruct (join_head c rest Hc) as (a & s & -> & _). done.
Qed.

Lemma str_absolute p :
  ¬ wf_rel p → wf_path p →
  ∃ s, str p = String sep s ∧ str p = _root p +:+ Str.join "/" (tail (_parts p)).
Proof.
  intros Hrel [?|(Hr & _ & _)]; [done|].
  unfold str, _format_parsed_parts.
  destruct Hr as [-> | ->]; cbn; eexists; split; reflexivity.
Qed.

Lemma str_inj p q : wf_path p → wf_path q → str p = str q → p = q.
Proof.
  intros Hp Hq.
  destruct (decide (wf_rel p)) as [Hrp|Hap], (decide (wf_rel q)) as [Hrq|Haq].
  - rewrite (str_relative p Hrp), (str_relative q Hrq).
    destruct Hrp as [Hr1 Hw1], Hrq as [Hr2 Hw2].
    destruct p as [r1 cs1], q as [r2 cs2]; cbn in *; subst. intros H.
    f_equal. destruct cs1 as [|c1 cs1], cs2 as [|c2 cs2]; [done|..].
    + by destruct (join_not_dot _ Hw2).
    + by destruct (join_not_dot _ Hw1).
    + by apply join_inj.
  - rewrite (str_relative p Hrp).
    destruct (str_absolute q Haq Hq) as (s & -> & _).
    destruct Hrp as [_ Hw]. destruct Hw as [|c rest Hc _]; [done|].
    destruct (join_head c rest Hc) as (a & t & -> & Ha). congruence.
  - rewrite (str_relative q Hrq).
    destruct (str_absolute p Hap Hp) as (s & -> & _).
    destruct Hrq as [_ Hw]. destruct Hw as [|c rest Hc _]; [done|].
    destruct (join_head c rest Hc) as (a & t & -> & Ha). congruence.
  - destruct (str_absolute p Hap Hp) as (_ & _ & ->).
    destruct (str_absolute q Haq Hq) as (_ & _ & ->).
    destruct Hp as [?|(Hr1 & Hh1 & Hw1)]; [done|].
    destruct Hq as [?|(Hr2 & Hh2 & Hw2)]; [done|].
    destruct p as [r1 ps1], q as [r2 ps2]; cbn in *.
    destruct ps1 as [|x1 cs1], ps2 as [|x2 cs2]; simplify_eq/=.
    intros H.
    assert (r1 = r2) as ->.
    { destruct Hr1 as [-> | ->], Hr2 as [-> | ->]; try done.
      - injection H as H. destruct Hw1 as [|c rest Hc _]; [done|].
        destruct (join_head c rest Hc) as (a & t & Ht & Ha).
        rewrite Ht in H. injection H as -> _. done.
      - injection H as H. destruct Hw2 as [|c rest Hc _]; [done|].
        destruct (join_head c rest Hc) as (a & t & Ht & Ha).
        rewrite Ht in H. injection H as <- _. done. }
    apply String.app_inj in H. by rewrite (join_inj _ _ Hw1 Hw2 H).
Qed.

(** ** Keys do not collide *)

Lemma name_cases p :
  wf_path p → name p = "" ∨ wf_component (name p).
Proof.
  intros [[Hr Hw]|(Hr & Hh & Hw)]; unfold name.
  - rewrite Hr. change (Str.nonempty "") with false. cbv iota.
    destruct (_parts p) as [|c cs] eqn:Hp; [by left|]. right.
    change (length (c :: cs) =? 0) with false. cbv iota.
    eapply Forall_forall in Hw; [done|]. by apply last_in.
  - assert (Str.nonempty (_root p) = true) as ->
      by (by destruct Hr as [-> | ->]).
    destruct (_parts p) as [|x [|c cs]] eqn:Hp; [done | by left |]. right.
    change (length (x :: c :: cs) =? 1) with false. cbv iota.
    cbn in Hw. eapply Forall_forall in Hw; [done|].
    change (List.last (x :: c :: cs) "") with (List.last (c :: cs) "").
    by apply last_in.
Qed.

Lemma name_sepfree p :
  wf_path p → Str.contains sep (name p) = false ∧ name p ≠ ".".
Proof. intros [->|(_ & ? & ?)]%name_cases; done. Qed.

(** When the bare name of [p] is the full string of [q], both have the
    same bare name. *)
Lemma name_is_str p q : wf_path p → wf_path q → name p = str q → name q = name p.
Proof.
  intros Hp Hq H. destruct (name_sepfree p Hp) as [Hsep Hdot].
  rewrite H in Hsep, Hdot. rewrite H. clear H Hp.
  destruct (decide (wf_rel q)) as [Hrq|Haq].
  - rewrite (str_relative q Hrq) in *. destruct Hrq as [Hr Hw].
    unfold name. rewrite Hr. change (Str.nonempty "") with false. cbv iota.
    destruct (_parts q) as [|c [|c' rest]]; [done..|].
    rewrite join_cons, contains_app in Hsep.
    apply orb_false_elim in Hsep as [_ Hsep]. done.
  - destruct (str_absolute q Haq Hq) as (s & Hs & _).
    rewrite Hs in Hsep. by apply sepfree_head in Hsep.
Qed.

Lemma multiplicity_two (paths : list PurePath) p q :
  p ∈ paths → q ∈ paths → p ≠ q → name p = name q →
  1 < multiplicity (name p) paths.
Proof.
  intros Hp Hq Hne Hn. unfold multiplicity.
  assert (p ∈ filter (λ x, name x = name p) paths) as Hp'
    by by apply list_elem_of_filter.
  assert (q ∈ filter (λ x, name x = name p) paths) as Hq'
    by by apply list_elem_of_filter.
  destruct (filter _ paths) as [|x [|y l]]; cbn; [|exfalso|lia].
  - by apply not_elem_of_nil in Hp'.
  - apply list_elem_of_singleton in Hp', Hq'. congruence.
Qed.

Lemma key_of_inj (paths : list PurePath) p q :
  Forall wf_path paths → p ∈ paths → q ∈ paths →
  key_of paths p = key_of paths q → p = q.
Proof.
  intros Hwf Hp Hq.
  assert (wf_path p) as Hwp by by eapply Forall_forall in Hwf.
  assert (wf_path q) as Hwq by by eapply Forall_forall in Hwf.
  unfold key_of.
  destruct (decide (1 < multiplicity (name p) paths)) as [Hmp|Hmp],
    (decide (1 < multiplicity (name q) paths)) as [Hmq|Hmq]; intros H.
  - by apply str_inj.
  - symmetry in H. apply (name_is_str q p Hwq Hwp) in H. congruence.
  - apply (name_is_str p q Hwp Hwq) in H. congruence.
  - destruct (decide (p = q)) as [|Hne]; [done|].
    destruct Hmp. by apply (multiplicity_two paths p q).
Qed.

Lemma keys_NoDup (paths : list PurePath) :
  NoDup paths → Forall wf_path paths → NoDup (key_of paths <$> paths).
Proof.
  intros Hnd Hwf. apply NoDup_fmap_2_strong; [|done].
  intros p q Hp Hq. by apply key_of_inj.
Qed.

(** ** Dict comprehensions *)

Lemma dict_of_list_to_map {V} (items : list (string * V)) :
  dict_of items = list_to_map (reverse items).
Proof.
  induction items as [|kv items IH] using rev_ind; [done|].
  unfold dict_of in *. rewrite foldl_app, IH, reverse_snoc. done.
Qed.

Section dict_of_lemmas.
Context {V : Type} (keys : list string) (vals : list V).
Hypothesis Hlen : length keys = length vals.
Hypothesis Hnd : NoDup keys.

Lemma zip_rev_NoDup : NoDup (reverse (zip keys vals)).*1.
Proof.
  rewrite fmap_reverse, fst_zip by lia. by rewrite reverse_Permutation.
Qed.

Lemma dict_of_size : size (dict_of (zip keys vals)) = length vals.
Proof.
  rewrite dict_of_list_to_map, map_size_list_to_map by apply zip_rev_NoDup.
  rewrite length_reverse, length_zip. lia.
Qed.

Lemma dict_of_lookup i k v :
  keys !! i = Some k → vals !! i = Some v →
  dict_of (zip keys vals) !! k = Some v.
Proof.
  intros Hk Hv. rewrite dict_of_list_to_map.
  apply elem_of_list_to_map_1; [apply zip_rev_NoDup|].
  rewrite elem_of_reverse.
  apply list_elem_of_lookup. exists i. by rewrite lookup_zip_with, Hk, Hv.
Qed.

Lemma dict_of_values : (map_to_list (dict_of (zip keys vals))).*2 ≡ₚ vals.
Proof.
  rewrite dict_of_list_to_map, map_to_list_to_map by apply zip_rev_NoDup.
  rewrite fmap_reverse, reverse_Permutation.
  by rewrite snd_zip by lia.
Qed.

End dict_of_lemmas.

(** C3, as the code has it. For a list of pairwise distinct paths, each
    as [pathlib] parses it and none ending with a NUL character, the
    mapping the resolver returns has as many entries as the list, the keys of
    the positions are pairwise distinct, the key of every position leads back
    to the path at that position, and the values of the mapping are the
    paths of the list, each once. *)
Theorem resolver_bijection (paths : list PurePath) :
  NoDup paths → Forall wf_path paths → Forall (λ p, unpadded (str p)) paths →
  ∃ m keys,
    _get_shortest_path_by_filename paths = inr m
    ∧ shortest_paths_arr paths = inr keys
    ∧ size m = length paths
    ∧ NoDup keys
    ∧ (∀ i p, paths !! i = Some p → ∃ k, keys !! i = Some k ∧ m !! k = Some p)
    ∧ (map_to_list m).*2 ≡ₚ paths.
Proof.
  intros Hnd Hwf Hall. eexists _, (key_of paths <$> paths).
  pose proof (keys_NoDup paths Hnd Hwf) as Hk.
  assert (length (key_of paths <$> paths) = length paths) as Hlen
    by apply length_fmap.
  split_and!.
  - by apply resolver_unfold.
  - by apply shortest_paths_arr_spec.
  - by apply dict_of_size.
  - done.
  - intros i p Hp. exists (key_of paths p). split.
    + by rewrite list_lookup_fmap, Hp.
    + apply (dict_of_lookup _ _ Hlen Hk i); [|done].
      by rewrite list_lookup_fmap, Hp.
  - by apply dict_of_values.
Qed.

Lemma resolver_bijection_witness :
  ∃ m keys,
    _get_shortest_path_by_filename scenario_A = inr m
    ∧ shortest_paths_arr scenario_A = inr keys
    ∧ size m = length scenario_A
    ∧ NoDup keys
    ∧ (∀ i p, scenario_A !! i = Some p
              → ∃ k, keys !! i = Some k ∧ m !! k = Some p)
    ∧ (map_to_list m).*2 ≡ₚ scenario_A.
Proof.
  apply (resolver_bijection scenario_A); compute_done.
Defined.

(** C3 as stated fails on a list that holds a path twice: both positions
    get the same key and the mapping has one entry for two positions. *)
Lemma resolver_bijection_counterexample :
  ∃ m, _get_shortest_path_by_filename [Path "a.md"; Path "a.md"] = inr m
       ∧ size m ≠ length [Path "a.md"; Path "a.md"].
Proof.
  eexists. split; [apply resolver_unfold; compute_done|]. vm_compute. lia.
Qed.

(** ** Walking the file system *)

Lemma node_induction (P : Fs.node → Prop) :
  P Fs.File →
  (∀ entries, Forall (λ e, P (snd e)) entries → P (Fs.Dir entries)) →
  ∀ nd, P nd.
Proof.
  intros HFile HDir. fix IH 1. intros [|entries]; [exact HFile|].
  apply HDir. induction entries as [|e es IHes]; constructor.
  - apply IH.
  - exact IHes.
Qed.

Lemma extend_nil path : extend path [] = path.
Proof. destruct path. unfold extend. cbn. by rewrite app_nil_r. Qed.

Lemma extend_child path nm cs :
  extend (_make_child_relpath path nm) cs = extend path (nm :: cs).
Proof. unfold extend, _make_child_relpath. cbn. by rewrite <- app_assoc. Qed.

Lemma extend_snoc path cs nm :
  _make_child_relpath (extend path cs) nm = extend path (cs ++ [nm]).
Proof. unfold extend, _make_child_relpath. cbn. by rewrite <- app_assoc. Qed.

Lemma scandir_Dir entries ups nm l :
  (nm, l) ∈ Fs.scandir (Fs.mkLoc (Fs.Dir entries) ups)
  ↔ ∃ c, (nm, c) ∈ entries ∧ l = Fs.mkLoc c (Fs.Dir entries :: ups).
Proof.
  unfold Fs.scandir. cbn. change (List.map ?f ?l) with (f <$> l).
  rewrite list_elem_of_fmap. split.
  - intros ([nm' c] & [= -> ->] & H). by exists c.
  - intros (c & H & ->). by exists (nm, c).
Qed.

Lemma scandir_is_dir l e : e ∈ Fs.scandir l → Fs.is_dir l = true.
Proof.
  unfold Fs.scandir, Fs.is_dir. destruct (Fs.here l); [|done].
  by intros ?%not_elem_of_nil.
Qed.

Lemma reaches_snoc l cs nm l' :
  reaches l (cs ++ [nm]) l' ↔ ∃ lq, reaches l cs lq ∧ (nm, l') ∈ Fs.scandir lq.
Proof.
  revert l. induction cs as [|c cs IH]; intros l; cbn.
  - split.
    + inversion 1 as [|? ? lc ? ? Hin Hr]; subst. inversion Hr; subst.
      exists l. split; [constructor | done].
    + intros (lq & Hr & Hin). inversion Hr; subst.
      econstructor; [done | constructor].
  - split.
    + inversion 1 as [|? ? lc ? ? Hin Hr]; subst.
      apply IH in Hr as (lq & Hr & Hin'). exists lq.
      split; [by econstructor | done].
    + intros (lq & Hr & Hin). inversion Hr as [|? ? lc ? ? Hin' Hr']; subst.
      econstructor; [done|]. apply IH. eauto.
Qed.

(** The directories the recursive selector starts from. *)
Lemma iterate_directories_spec nd : ∀ ups path q lq,
  (q, lq) ∈ Fs._iterate_directories nd ups path
  ↔ ∃ cs, q = extend path cs ∧ reaches (Fs.mkLoc nd ups) cs lq
          ∧ (cs = [] ∨ Fs.is_dir lq = true).
Proof.
  induction nd as [|entries IH] using node_induction; intros ups path q lq.
  - cbn. rewrite list_elem_of_singleton. split.
    + intros [= -> ->]. exists []. rewrite extend_nil.
      split_and!; [done | constructor | by left].
    + intros (cs & -> & Hr & _). inversion Hr as [|? ? ? ? ? Hin]; subst.
      * by rewrite extend_nil.
      * by apply not_elem_of_nil in Hin.
  - cbn [Fs._iterate_directories]. rewrite elem_of_cons.
    set (children := fix children (es : list (string * Fs.node)) : list Fs.entry := _).
    assert (∀ es, Forall (λ e, ∀ ups path q lq,
                (q, lq) ∈ Fs._iterate_directories (snd e) ups path
                ↔ ∃ cs, q = extend path cs
                        ∧ reaches (Fs.mkLoc (snd e) ups) cs lq
                        ∧ (cs = [] ∨ Fs.is_dir lq = true)) es →
              (q, lq) ∈ children es
              ↔ ∃ nm c cs, (nm, c) ∈ es ∧ Fs.is_dir (Fs.mkLoc c (Fs.Dir entries :: ups)) = true
                  ∧ q = extend path (nm :: cs)
                  ∧ reaches (Fs.mkLoc c (Fs.Dir entries :: ups)) cs lq
                  ∧ (cs = [] ∨ Fs.is_dir lq = true)) as Hchildren.
    { induction es as [|[nm c] es IHes]; intros Hes.
      - cbn. split; [by intros ?%not_elem_of_nil|].
        by intros (? & ? & ? & ?%not_elem_of_nil & _).
      - apply Forall_cons in Hes as [Hc Hes]. cbn [children].
        rewrite elem_of_app, (IHes Hes). cbn in Hc. split.
        + intros [H|(nm' & c' & cs & Hin & H)].
          * destruct c as [|es']; [by apply not_elem_of_nil in H|].
            apply Hc in H as (cs & -> & Hr & Hd). exists nm, (Fs.Dir es'), cs.
            rewrite extend_child. split_and!; [left | done..].
          * exists nm', c', cs. split; [by right | done].
        + intros (nm' & c' & cs & [[= -> ->]|Hin]%elem_of_cons & Hd & -> & Hr & Hcs).
          * left. destruct c as [|es']; [done|]. apply Hc. exists cs.
            by rewrite extend_child.
          * right. exists nm', c', cs. done. }
    rewrite (Hchildren entries IH). clear Hchildren. split.
    + intros [[= -> ->]|(nm & c & cs & Hin & Hd & -> & Hr & Hcs)].
      * exists []. rewrite extend_nil. split_and!; [done | constructor | by left].
      * exists (nm :: cs). split_and!; [done | |].
        -- econstructor; [|done]. apply scandir_Dir. by exists c.
        -- right. destruct Hcs as [-> | ?]; [|done]. by inversion Hr; subst.
    + intros (cs & -> & Hr & Hcs). inversion Hr as [|? nm lc cs' ? Hin Hr']; subst.
      * left. by rewrite extend_nil.
      * right. apply scandir_Dir in Hin as (c & Hin & ->).
        exists nm, c, cs'. split_and!; [done | | done | done |].
        -- destruct Hcs as [?|Hd]; [done|]. inversion Hr'; subst; [done|].
           by eapply scandir_is_dir.
        -- destruct Hcs as [?|Hd]; [done|]. by right.
Qed.

(** ** Globbing *)

Lemma path_eqb_refl p : path_eqb p p = true.
Proof. unfold path_eqb. by apply bool_decide_eq_true. Qed.

Lemma path_eqb_extend d cs cs' :
  path_eqb (extend d cs) (extend d cs') = true → cs = cs'.
Proof.
  unfold path_eqb, extend. cbn. intros H%bool_decide_eq_true.
  by apply app_inv_head in H.
Qed.

Lemma once_subset yielded found e :
  e ∈ Fs.once yielded found → e ∈ found.
Proof.
  revert yielded. induction found as [|e0 found IH]; intros yielded; cbn; [done|].
  destruct (existsb _ yielded).
  - intros H%IH. by right.
  - intros [->|H%IH]%elem_of_cons; [left | by right].
Qed.

Lemma once_complete found : ∀ yielded e,
  e ∈ found → existsb (path_eqb (fst e)) yielded = false →
  ∃ e', e' ∈ Fs.once yielded found ∧ path_eqb (fst e) (fst e') = true.
Proof.
  induction found as [|e0 found IH]; intros yielded e He Hy.
  { by apply not_elem_of_nil in He. }
  cbn. destruct (existsb (path_eqb (fst e0)) yielded) eqn:H0.
  - apply elem_of_cons in He as [->|He]; [congruence|]. by apply IH.
  - apply elem_of_cons in He as [->|He].
    { exists e0. split; [left | apply path_eqb_refl]. }
    destruct (path_eqb (fst e) (fst e0)) eqn:Heq.
    { exists e0. split; [left | done]. }
    destruct (IH (fst e0 :: yielded) e He) as (e' & He' & Hp).
    + cbn. by rewrite Heq, Hy.
    + exists e'. split; [by right | done].
Qed.

Lemma select_wildcard pat q lq r lr :
  (r, lr) ∈ Fs._select_from (Fs.Wildcard pat false Fs.Terminating) (q, lq)
  ↔ ∃ nm, (nm, lr) ∈ Fs.scandir lq
          ∧ Fnmatch.compile_pattern pat nm = true
          ∧ r = _make_child_relpath q nm.
Proof.
  cbn. rewrite list_elem_of_In, in_flat_map. split.
  - intros ([nm l] & Hin%list_elem_of_In & H). cbn in H.
    destruct (Fnmatch.compile_pattern pat nm) eqn:Hm; [|done].
    destruct H as [[= <- <-]|[]]. by exists nm.
  - intros (nm & Hin & Hm & ->). exists (nm, lr).
    split; [by apply list_elem_of_In|]. cbn. rewrite Hm. by left.
Qed.

(** What the recursive selector followed by one wild-card component finds,
    before the repetitions are removed. *)
Lemma recursive_wildcard_found pat nd ups path r lr :
  (r, lr) ∈ flat_map (Fs._select_from (Fs.Wildcard pat false Fs.Terminating))
              (Fs._iterate_directories nd ups path)
  ↔ ∃ cs nm, reaches (Fs.mkLoc nd ups) (cs ++ [nm]) lr
             ∧ Fnmatch.compile_pattern pat nm = true
             ∧ r = extend path (cs ++ [nm]).
Proof.
  rewrite list_elem_of_In, in_flat_map. split.
  - intros ([q lq] & Hin%list_elem_of_In & H%list_elem_of_In).
    apply iterate_directories_spec in Hin as (cs & -> & Hr & _).
    apply select_wildcard in H as (nm & Hin & Hm & ->).
    exists cs, nm. rewrite extend_snoc. split_and!; [|done..].
    apply reaches_snoc. eauto.
  - intros (cs & nm & (lq & Hr & Hin)%reaches_snoc & Hm & ->).
    exists (extend path cs, lq). split; apply list_elem_of_In.
    + apply iterate_directories_spec. exists cs. split_and!; [done..|].
      right. by eapply scandir_is_dir.
    + apply select_wildcard. exists nm. by rewrite extend_snoc.
Qed.

Lemma snoc_cases {A} (cs : list A) : cs ≠ [] → ∃ cs' x, cs = cs' ++ [x].
Proof.
  destruct cs as [|c cs] using rev_ind; [done|]. intros _. by exists cs, c.
Qed.

Lemma last_snoc {A} (cs : list A) x d : List.last (cs ++ [x]) d = x.
Proof. apply last_last. Qed.

(** [select_from] with the recursive selector and one wild-card component. *)
Lemma select_recursive_wildcard w pat dir_path e :
  e ∈ Fs.select_from w
        (Fs.RecursiveWildcard (Fs.Wildcard pat false Fs.Terminating)) dir_path
  → ∃ l cs, Fs.resolve w dir_path = Some l ∧ cs ≠ [] ∧ reaches l cs (snd e)
            ∧ Fnmatch.compile_pattern pat (List.last cs "") = true
            ∧ fst e = extend dir_path cs.
Proof.
  unfold Fs.select_from. destruct (Fs.resolve w dir_path) as [l|];
    [|by intros ?%not_elem_of_nil].
  destruct (Fs.is_dir l); [|by intros ?%not_elem_of_nil].
  cbn [Fs._select_from fst snd]. intros He%once_subset. destruct e as [r lr].
  destruct l as [nd ups].
  apply recursive_wildcard_found in He as (cs & nm & Hr & Hm & ->).
  exists (Fs.mkLoc nd ups), (cs ++ [nm]). rewrite last_snoc.
  split_and!; [done | by destruct cs | done..].
Qed.

Lemma select_recursive_wildcard_complete w pat dir_path l cs lr :
  Fs.resolve w dir_path = Some l → cs ≠ [] → reaches l cs lr →
  Fnmatch.compile_pattern pat (List.last cs "") = true →
  ∃ e, e ∈ Fs.select_from w
             (Fs.RecursiveWildcard (Fs.Wildcard pat false Fs.Terminating))
             dir_path
       ∧ fst e = extend dir_path cs.
Proof.
  intros Hl Hcs Hr Hm. unfold Fs.select_from. rewrite Hl.
  destruct (snoc_cases cs Hcs) as (cs' & nm & ->). rewrite last_snoc in Hm.
  assert (Fs.is_dir l = true) as ->.
  { destruct cs'; inversion Hr; subst; by eapply scandir_is_dir. }
  cbn [Fs._select_from fst snd]. destruct l as [nd ups].
  destruct (once_complete
              (flat_map (Fs._select_from (Fs.Wildcard pat false Fs.Terminating))
                 (Fs._iterate_directories nd ups dir_path))
              [] (extend dir_path (cs' ++ [nm]), lr)) as (e' & He' & Heq).
  - apply recursive_wildcard_found. by exists cs', nm.
  - done.
  - exists e'. split; [done|]. destruct e' as [r' lr'].
    apply once_subset, recursive_wildcard_found in He'
      as (cs2 & nm2 & _ & _ & ->).
    cbn in *. by apply path_eqb_extend in Heq as <-.
Qed.

(** ** Relative paths of what is found *)

Lemma parse_rev_root it r :
  Forall wf_component it → r = "/" ∨ r = "//" →
  parse_rev (it ++ [r]) = (r, r :: rev it).
Proof.
  intros Hit Hr. induction Hit as [|x it Hx _ IH].
  - by destruct Hr as [-> | ->].
  - cbn [app parse_rev rev]. destruct Hx as (Hn & Hsep & Hd).
    rewrite (proj2 (nonempty_true x) Hn), (splitroot_sepfree x Hsep).
    change (Str.nonempty "") with false. cbv iota. rewrite IH.
    rewrite (rel_components_sepfree x Hsep), wf_keep by done. done.
Qed.

Lemma parse_parts_wf_path p :
  wf_path p → parse_parts (_parts p) = (_root p, _parts p).
Proof.
  intros [[Hr Hw]|(Hr & Hh & Hw)].
  - by rewrite (parse_parts_wf _ Hw), Hr.
  - destruct (_parts p) as [|x comps]; [done|]. cbn in Hh, Hw.
    injection Hh as ->. unfold parse_parts. cbn [rev].
    rewrite parse_rev_root; [by rewrite rev_involutive | | done].
    apply Forall_forall. intros y Hy%list_elem_of_In%in_rev%list_elem_of_In.
    by eapply Forall_forall in Hw.
Qed.

Lemma PathOf_wf_path p : wf_path p → PathOf [ArgPath p] = p.
Proof.
  intros Hp. unfold PathOf, _parse_args. cbn [List.map concat].
  rewrite app_nil_r, (parse_parts_wf_path p Hp). by destruct p.
Qed.

Lemma relative_to_extend d cs :
  wf_path d → relative_to (extend d cs) [ArgPath d] = inr (mkPath "" cs).
Proof.
  intros Hd. unfold relative_to, _parse_args. cbn [List.map concat].
  rewrite app_nil_r, (parse_parts_wf_path d Hd). cbn [extend _root _parts].
  destruct Hd as [[Hr Hw]|(Hr & Hh & Hw)].
  - rewrite Hr. change (Str.nonempty "") with false. cbv iota.
    rewrite take_app_length, drop_app_length.
    rewrite bool_decide_eq_true_2 by done.
    by destruct (length (_parts d)) as [|[|n]].
  - assert (Str.nonempty (_root d) = true) as ->
      by (by destruct Hr as [-> | ->]).
    destruct (_parts d) as [|x comps]; [done|]. cbn [tail app length].
    set (to := "" :: _root d :: comps).
    change ("" :: _root d :: comps ++ cs) with (to ++ cs).
    change (S (S (length comps))) with (length to).
    rewrite take_app_length, drop_app_length.
    by rewrite bool_decide_eq_true_2 by done.
Qed.

Lemma last_app_nonempty {A} (l cs : list A) d :
  cs ≠ [] → List.last (l ++ cs) d = List.last cs d.
Proof.
  intros Hcs. destruct (snoc_cases cs Hcs) as (cs' & x & ->).
  by rewrite app_assoc, !last_snoc.
Qed.

Lemma name_extend d cs :
  wf_path d → cs ≠ [] → name (extend d cs) = List.last cs "".
Proof.
  intros Hd Hcs. unfold name, extend. cbn [_root _parts].
  rewrite last_app_nonempty by done.
  assert ((length (_parts d ++ cs)
           =? (if Str.nonempty (_root d) then 1 else 0)) = false) as ->; [|done].
  apply Nat.eqb_neq. rewrite length_app.
  assert (0 < length cs) by (destruct cs; [done | cbn; lia]).
  destruct Hd as [[Hr Hw]|(Hr & Hh & Hw)].
  - rewrite Hr. change (Str.nonempty "") with false. cbv iota. lia.
  - destruct (_parts d); [done|]. cbn [length].
    destruct (Str.nonempty (_root d)); lia.
Qed.

Lemma suffix_extend d cs :
  wf_path d → cs ≠ [] → suffix (extend d cs) = suffix (mkPath "" cs).
Proof.
  intros Hd Hcs. unfold suffix.
  by rewrite (name_extend d cs Hd Hcs), name_relative.
Qed.

Lemma rfind_drop c s :
  (0 ≤ Str.rfind c s)%Z →
  ∃ t, Str.drop (Z.to_nat (Str.rfind c s)) s = String c t.
Proof.
  induction s as [|a s IH]; cbn [Str.rfind]; [lia|].
  destruct (Z.leb_spec 0 (Str.rfind c s)) as [Hr|Hr].
  - intros _. destruct (IH Hr) as [t Ht]. exists t.
    replace (Z.to_nat (1 + Str.rfind c s)) with (S (Z.to_nat (Str.rfind c s)))
      by lia.
    done.
  - destruct (Ascii.eqb_spec a c) as [->|]; [|lia]. intros _. by eexists.
Qed.

(** A suffix is empty or begins with a dot. *)
Lemma suffix_shape p : suffix p = "" ∨ ∃ t, suffix p = String "." t.
Proof.
  unfold suffix. destruct (_ && _)%bool eqn:H; [|by left]. right.
  apply andb_true_iff in H as [H%Z.ltb_lt _].
  apply rfind_drop. lia.
Qed.

Lemma compile_star nm : Fnmatch.compile_pattern "*" nm = true.
Proof.
  unfold Fnmatch.compile_pattern, Fnmatch.fullmatch.
  change (Fnmatch.translate "*") with (Fnmatch.mkRegex [] [] (Some [])).
  cbn. unfold Fnmatch.match_final. cbn. rewrite Nat.sub_0_r, drop_all.
  by destruct (list_ascii_of_string nm).
Qed.

Lemma glob_all w self :
  Fs.glob w self "**/*"
  = inr (Fs.select_from w
           (Fs.RecursiveWildcard (Fs.Wildcard "*" false Fs.Terminating)) self).
Proof. reflexivity. Qed.

(** ** The listings *)



(** ** Literal extensions *)

Lemma list_ascii_app s t :
  list_ascii_of_string (s +:+ t)
  = list_ascii_of_string s ++ list_ascii_of_string t.
Proof.
  induction s as [|a s IH]; [done|].
  change (String a s +:+ t) with (String a (s +:+ t)). cbn. by rewrite IH.
Qed.

Lemma contains_elem_of c s :
  Str.contains c s = false ↔ c ∉ list_ascii_of_string s.
Proof.
  induction s as [|a s IH]; cbn.
  - split; [intros _; apply not_elem_of_nil | done].
  - rewrite orb_false_iff, IH, not_elem_of_cons, Ascii.eqb_neq.
    split; intros [? ?]; split; congruence.
Qed.

Lemma tokens_literal cs star :
  "*"%char ∉ cs → "?"%char ∉ cs → "["%char ∉ cs →
  Fnmatch.tokens 0 star cs = (λ c, Fnmatch.Atom (Fnmatch.Lit c)) <$> cs.
Proof.
  revert star. induction cs as [|c cs IH]; intros star; [done|].
  intros [H1 H1']%not_elem_of_cons [H2 H2']%not_elem_of_cons
         [H3 H3']%not_elem_of_cons.
  cbn [Fnmatch.tokens].
  rewrite (proj2 (Ascii.eqb_neq c "*")), (proj2 (Ascii.eqb_neq c "?")),
    (proj2 (Ascii.eqb_neq c "[")) by congruence.
  cbn. by rewrite IH.
Qed.

Lemma fixed_of_atoms (atoms : list Fnmatch.atom) :
  Fnmatch.fixed_of (Fnmatch.Atom <$> atoms) = (atoms, []).
Proof. induction atoms as [|a atoms IH]; [done|]. cbn. by rewrite IH. Qed.

Lemma translate_literal ext :
  literal ext →
  Fnmatch.translate ("*." +:+ ext)
  = Fnmatch.mkRegex [] []
      (Some (Fnmatch.Lit <$> "."%char :: list_ascii_of_string ext)).
Proof.
  intros (H1 & H2 & H3 & _). apply contains_elem_of in H1, H2, H3.
  unfold Fnmatch.translate.
  change (list_ascii_of_string ("*." +:+ ext))
    with ("*"%char :: "."%char :: list_ascii_of_string ext).
  cbn [Fnmatch.tokens]. cbn [Ascii.eqb Bool.eqb andb].
  rewrite tokens_literal by done.
  cbn [Fnmatch.fixed_of]. cbn [length Fnmatch.groups].
  change (Fnmatch.Atom (Fnmatch.Lit ".")
          :: ((λ c, Fnmatch.Atom (Fnmatch.Lit c)) <$> list_ascii_of_string ext))
    with ((λ c, Fnmatch.Atom (Fnmatch.Lit c))
            <$> "."%char :: list_ascii_of_string ext).
  rewrite (list_fmap_compose Fnmatch.Lit Fnmatch.Atom), fixed_of_atoms. done.
Qed.

Lemma match_fixed_lits cs s r :
  Fnmatch.match_fixed (Fnmatch.Lit <$> cs) s = Some r ↔ s = cs ++ r.
Proof.
  revert s. induction cs as [|c cs IH]; intros s; cbn.
  - split; [by intros [= ->] | by intros ->].
  - destruct s as [|a s]; [done|]. destruct (Ascii.eqb_spec a c) as [->|Hne].
    + rewrite IH. split; [by intros -> | by intros [= ->]].
    + split; [done | by intros [= -> _]].
Qed.

Lemma match_final_lits cs s :
  Fnmatch.match_final (Fnmatch.Lit <$> cs) s = true ↔ ∃ pre, s = pre ++ cs.
Proof.
  unfold Fnmatch.match_final.
  rewrite andb_true_iff, Nat.leb_le, bool_decide_eq_true, match_fixed_lits.
  rewrite length_fmap, app_nil_r. split.
  - intros [Hlen Hd]. set (n := length s - length cs) in *.
    exists (take n s). rewrite <- (take_drop n s) at 1. by rewrite Hd.
  - intros [pre ->]. rewrite length_app. split; [lia|].
    replace (length pre + length cs - length cs) with (length pre) by lia.
    by rewrite drop_app_length.
Qed.

Lemma string_of_list_inj s t :
  list_ascii_of_string s = list_ascii_of_string t → s = t.
Proof.
  intros H. by rewrite <- (string_of_list_ascii_of_string s),
    <- (string_of_list_ascii_of_string t), H.
Qed.

(** For a literal extension the compiled pattern tests the ending. *)
Lemma compile_literal ext nm :
  literal ext →
  Fnmatch.compile_pattern ("*." +:+ ext) nm = true ↔ has_extension ext nm.
Proof.
  intros Hext. unfold Fnmatch.compile_pattern, Fnmatch.fullmatch.
  rewrite (translate_literal ext Hext). cbn [Fnmatch.leading Fnmatch.interior
    Fnmatch.final Fnmatch.match_fixed mbind option_bind foldl].
  rewrite match_final_lits. unfold has_extension. split.
  - intros [pre H]. exists (string_of_list_ascii pre).
    apply string_of_list_inj.
    by rewrite !list_ascii_app, list_ascii_of_string_of_list_ascii.
  - intros [stem ->]. exists (list_ascii_of_string stem).
    by rewrite !list_ascii_app.
Qed.

Lemma ends_with_sep_sepfree s :
  Str.contains sep s = false → Fs.ends_with_sep s = false.
Proof.
  intros H. unfold Fs.ends_with_sep. destruct s as [|a s]; [done|].
  apply andb_false_iff. right. apply Ascii.eqb_neq. intros Heq.
  apply contains_elem_of in H. apply H. rewrite <- Heq. by apply last_in.
Qed.

Lemma infix_double_star s :
  Str.contains "*" s = false → Fs.infix "**" s = false.
Proof.
  induction s as [|a s IH]; [done|]. cbn [Str.contains Fs.infix].
  intros [Ha Hs]%orb_false_elim. rewrite (IH Hs), orb_false_r.
  cbn [String.prefix]. destruct (ascii_dec "*" a) as [<-|]; [|done].
  by rewrite Ascii.eqb_refl in Ha.
Qed.

Lemma make_selector_literal ext :
  literal ext →
  Fs._make_selector ["**"; "*." +:+ ext]
  = inr (Fs.RecursiveWildcard
           (Fs.Wildcard ("*." +:+ ext) false Fs.Terminating)).
Proof.
  intros (H1 & _). cbn [Fs._make_selector].
  change (Str.nonempty "**") with true. change (String.eqb "**" "**") with true.
  change (Str.nonempty ("*." +:+ ext)) with true.
  change (String.eqb ("*." +:+ ext) "**") with false.
  change (Fs.infix "**" ("*." +:+ ext)) with (false || (false || Fs.infix "**" ext)).
  rewrite (infix_double_star ext H1). done.
Qed.

Lemma rglob_literal w self ext :
  literal ext →
  Fs.rglob w self ("*." +:+ ext)
  = inr (Fs.select_from w
           (Fs.RecursiveWildcard
              (Fs.Wildcard ("*." +:+ ext) false Fs.Terminating)) self).
Proof.
  intros Hext. pose proof Hext as (_ & _ & _ & H4). unfold Fs.rglob.
  assert (Str.contains sep ("*." +:+ ext) = false) as Hsep by done.
  rewrite (parse_parts_sepfree ["*." +:+ ext]) by (by repeat constructor).
  change (List.filter keep ["*." +:+ ext]) with ["*." +:+ ext].
  change (Str.nonempty "") with false. cbv iota.
  rewrite (ends_with_sep_sepfree _ Hsep), (make_selector_literal ext Hext).
  done.
Qed.

(** ** Well-formed file systems *)

Lemma scandir_wf_child l nm l' :
  wf_loc l → (nm, l') ∈ Fs.scandir l → wf_loc l'.
Proof.
  intros [Hh Ha]. destruct l as [[|entries] ups]; [by intros ?%not_elem_of_nil|].
  intros (c & Hin & ->)%scandir_Dir. inversion Hh as [|? _ Hall]; subst.
  split; cbn; [|by constructor].
  by apply (proj1 (Forall_forall _ _) Hall (nm, c)).
Qed.

Lemma names_unique {A} (entries : list (string * A)) nm x y :
  NoDup entries.*1 → (nm, x) ∈ entries → (nm, y) ∈ entries → x = y.
Proof.
  induction entries as [|[k v] entries IH]; [by intros _ ?%not_elem_of_nil|].
  cbn. intros [Hk Hnd]%NoDup_cons Hx%elem_of_cons Hy%elem_of_cons.
  assert (∀ z, (nm, z) ∈ entries → nm ∈ entries.*1) as Hin.
  { intros z Hz. apply list_elem_of_fmap. by exists (nm, z). }
  destruct Hx as [[= -> ->]|Hx], Hy as [[= ->]|Hy].
  - done.
  - destruct Hk. by eapply Hin.
  - subst. destruct Hk. by eapply Hin.
  - by apply IH.
Qed.

Lemma scandir_wf_unique l nm l1 l2 :
  wf_loc l → (nm, l1) ∈ Fs.scandir l → (nm, l2) ∈ Fs.scandir l → l1 = l2.
Proof.
  intros [Hh _]. destruct l as [[|entries] ups]; [by intros ?%not_elem_of_nil|].
  intros (c1 & H1 & ->)%scandir_Dir (c2 & H2 & ->)%scandir_Dir.
  inversion Hh as [|? Hnd _]; subst.
  by rewrite (names_unique entries nm c1 c2).
Qed.

Lemma reaches_unique l cs l1 l2 :
  wf_loc l → reaches l cs l1 → reaches l cs l2 → l1 = l2.
Proof.
  intros Hwf H1. revert l2. induction H1 as [l|l nm c cs l1 Hin H1 IH]; intros l2.
  - by inversion 1.
  - inversion 1 as [|? ? c' ? ? Hin' H2]; subst.
    rewrite (scandir_wf_unique l nm c' c Hwf Hin' Hin) in H2.
    apply IH; [|done]. by eapply scandir_wf_child.
Qed.

Lemma lookup_wf l nm l' : wf_loc l → Fs.lookup l nm = Some l' → wf_loc l'.
Proof.
  intros Hwf. unfold Fs.lookup. destruct (negb (Fs.is_dir l)); [done|].
  destruct (String.eqb nm "..").
  { intros [= <-]. destruct Hwf as [Hh Ha].
    destruct (Fs.above l) as [|up ups] eqn:Hup; [by split; [|rewrite Hup]|].
    apply Forall_cons in Ha as [? ?]. by split. }
  destruct (String.eqb nm "."); [by intros [= <-]|].
  destruct (List.find _ _) as [[nm' lc]|] eqn:Hf; [|done].
  intros [= <-]. apply find_some in Hf as [Hin%list_elem_of_In _].
  by eapply scandir_wf_child.
Qed.

Lemma walk_wf cs : ∀ l l', wf_loc l → Fs.walk l cs = Some l' → wf_loc l'.
Proof.
  induction cs as [|c cs IH]; intros l l' Hwf; cbn; [by intros [= <-]|].
  destruct (Fs.lookup l c) as [lc|] eqn:Hc; [|done]. cbn.
  apply IH. by eapply lookup_wf.
Qed.

Lemma resolve_wf w p l : wf_world w → Fs.resolve w p = Some l → wf_loc l.
Proof.
  intros Hw. unfold Fs.resolve. apply walk_wf. split; [done | constructor].
Qed.

(** For a literal extension, and a file system that lists every name
    once, the listing is what the specification says: the relative paths of
    the regular files below the directory whose name ends with a dot and
    the extension. *)
Lemma get_relpaths_from_dir_literal (w : Fs.world) (dir_path : PurePath)
    (extension : string) :
  literal extension → wf_path dir_path → wf_world w →
  ∃ out, get_relpaths_from_dir w dir_path extension = inr out
    ∧ ∀ rel, rel ∈ out
             ↔ ∃ cs l', below w dir_path cs l' ∧ Fs.is_file l' = true
                        ∧ rel = mkPath "" cs
                        ∧ has_extension extension (name rel).
Proof.
  intros Hext Hd Hw. unfold get_relpaths_from_dir.
  rewrite (rglob_literal w dir_path extension Hext). cbn [mbind result_bind].
  set (found := Fs.select_from _ _ _).
  set (kept := List.filter (λ p, Fs.is_file (snd p)) found).
  set (g := λ e : Fs.entry,
              mkPath "" (drop (length (_parts dir_path)) (_parts (fst e)))).
  assert (∀ e, e ∈ kept ↔ e ∈ found ∧ Fs.is_file (snd e) = true) as Hkept.
  { intros e. unfold kept.
    by rewrite list_elem_of_In, filter_In, <- list_elem_of_In. }
  exists (g <$> kept). split.
  - apply mapM_result_inr. intros e [He _]%Hkept.
    apply select_recursive_wildcard in He as (l & cs & _ & _ & _ & _ & Hp).
    rewrite Hp, (relative_to_extend dir_path cs Hd). unfold g. rewrite Hp.
    cbn. by rewrite drop_app_length.
  - intros rel. rewrite list_elem_of_fmap. split.
    + intros (e & -> & [He Hf]%Hkept).
      apply select_recursive_wildcard in He as (l & cs & Hl & Hcs & Hr & Hm & Hp).
      exists cs, (snd e). unfold g. rewrite Hp. cbn [extend _parts].
      rewrite drop_app_length, name_relative.
      split_and!; [split; eauto | done | done |].
      by apply compile_literal.
    + intros (cs & l' & [Hcs (l & Hl & Hr)] & Hf & -> & Hm).
      rewrite name_relative in Hm. apply (compile_literal _ _ Hext) in Hm.
      destruct (select_recursive_wildcard_complete w _ dir_path l cs l' Hl Hcs Hr Hm)
        as (e & He & Hp).
      exists e. split.
      * unfold g. rewrite Hp. cbn. by rewrite drop_app_length.
      * apply Hkept. split; [done|].
        apply select_recursive_wildcard in He
          as (l2 & cs2 & Hl2 & _ & Hr2 & _ & Hp2).
        rewrite Hp in Hp2. apply (f_equal _parts), app_inv_head in Hp2 as <-.
        rewrite Hl in Hl2. injection Hl2 as <-.
        by rewrite <- (reaches_unique l cs l' (snd e) (resolve_wf w _ l Hw Hl) Hr Hr2).
Qed.

Lemma has_extension_final ext nm :
  has_extension ext nm
  ↔ Fnmatch.match_final (Fnmatch.Lit <$> "."%char :: list_ascii_of_string ext)
      (list_ascii_of_string nm) = true.
Proof.
  rewrite match_final_lits. unfold has_extension. split.
  - intros [stem ->]. exists (list_ascii_of_string stem).
    by rewrite !list_ascii_app.
  - intros [pre H]. exists (string_of_list_ascii pre).
    apply string_of_list_inj.
    by rewrite !list_ascii_app, list_ascii_of_string_of_list_ascii.
Qed.

(** C8. The extension is written into a glob pattern as it is, so its
    wild-card characters are interpreted: in the vault, the extension ["m?"]
    lists [a.md], a file whose name does not end with [".m?"]. The listing is
    not the set of files with the literal extension for every extension
    string (it is for the literal ones, [get_relpaths_from_dir_literal]). *)
Theorem get_relpaths_from_dir_wildcard :
  ∃ out, get_relpaths_from_dir home_world (Path "v") "m?" = inr out
    ∧ Path "a.md" ∈ out
    ∧ ¬ has_extension "m?" (name (Path "a.md")).
Proof.
  exists (Path <$> ["a.md"; "sub/a.md"; "sub/b.md"]). split_and!.
  - vm_compute. reflexivity.
  - left.
  - rewrite has_extension_final. vm_compute. discriminate.
Qed.

Example directories_are_listed :
  _get_valid_filepaths_by_ext_set home_world (Path "v") {[ ".md" ]}
  = inr (Path <$> ["a.md"; "sub/a.md"; "sub/b.md"; "sub/x.md"])
  ∧ Fs.is_dir <$> (Fs.resolve home_world (Path "v/sub/x.md")) = Some true.
Proof. split; vm_compute; reflexivity. Qed.

(** ** The scenarios of the specification *)

Example scenario_A_listing :
  get_relpaths_matching_subdirs home_world (Path "v") "md" None true
  = inr scenario_A.
Proof. vm_compute. reflexivity. Qed.

Example scenario_A_keys :
  shortest_paths_arr scenario_A = inr ["a.md"; "sub/a.md"; "b.md"].
Proof. vm_compute. reflexivity. Qed.

Example scenario_A_mapping :
  _get_shortest_path_by_filename scenario_A
  = inr (<["sub/a.md" := Path "sub/a.md"]>
           (<["a.md" := Path "a.md"]> {["b.md" := Path "sub/b.md"]})).
Proof. vm_compute. reflexivity. Qed.

Example scenario_B_filter :
  matching_subdirs scenario_B (Some ["Cat1"]) false
  = inr (Path <$> ["Cat1/x.md"; "Cat1/Sub/y.md"]).
Proof. reflexivity. Qed.

Example scenario_C_empty : _get_shortest_path_by_filename [] = inr ∅.
Proof. reflexivity. Qed.

(** An allow-list entry whose name is two dots and a suffix loses the
    suffix and is left as a dot, which [is_relative_to] reads as the root:
    every relative path is then under it. *)
Example dot_stem_entry :
  normalize_subdir "..md" = inr (mkPath "" ["."])
  ∧ segments (mkPath "" ["."]) = []
  ∧ matching_subdirs scenario_B (Some ["..md"]) false = inr scenario_B.
Proof. repeat split. Qed.

(* ================================================================== *)
(** * Further properties of the code *)

(** ** More on the SubtreeFilter *)

Lemma filter_bool_mono {A} (f g : A → bool) (l : list A) :
  (∀ x, x ∈ l → f x = true → g x = true) →
  List.filter f l `sublist_of` List.filter g l.
Proof.
  induction l as [|x l IH]; intros Hfg; cbn; [done|].
  assert (List.filter f l `sublist_of` List.filter g l) as Hl
    by (apply IH; intros y Hy; apply Hfg; by right).
  destruct (f x) eqn:Hf.
  - rewrite (Hfg x) by (done || left). by constructor.
  - destruct (g x); [by constructor | done].
Qed.

Lemma filter_bool_ext_in {A} (f g : A → bool) (l : list A) :
  (∀ x, x ∈ l → f x = g x) → List.filter f l = List.filter g l.
Proof.
  induction l as [|x l IH]; intros Hfg; cbn; [done|].
  rewrite (Hfg x) by left. rewrite IH by (intros y Hy; apply Hfg; by right).
  done.
Qed.

Lemma elem_of_filter_bool {A} (f : A → bool) (l : list A) x :
  x ∈ List.filter f l ↔ x ∈ l ∧ f x = true.
Proof. by rewrite list_elem_of_In, filter_In, <- list_elem_of_In. Qed.

Lemma path_eqb_root p : path_eqb (parent p) (Path ".") = true ↔ at_root p.
Proof. unfold path_eqb, at_root. by rewrite bool_decide_eq_true. Qed.

Lemma at_root_relative p :
  _root p = "" → at_root p ↔ length (_parts p) ≤ 1.
Proof.
  intros Hp. unfold at_root. rewrite (parent_relative p Hp). cbn.
  destruct (_parts p) as [|c [|c' cs]]; cbn; split; (done || lia).
Qed.

(** What [matching_subdirs] returns, whenever it returns. *)
Lemma matching_subdirs_inr all_rel S include_root out :
  matching_subdirs all_rel S include_root = inr out →
  (falsy S = true
   ∧ out = if include_root then all_rel
           else List.filter (λ p, negb (path_eqb (parent p) (Path "."))) all_rel)
  ∨ (falsy S = false
     ∧ ∃ ds, allowed_dirs_of (default [] S) = inr ds
        ∧ out = List.filter
                  (λ p, (include_root && path_eqb (parent p) (Path "."))
                        || _in_allowed_tree ds p) all_rel).
Proof.
  unfold matching_subdirs. destruct (falsy S).
  - intros [= <-]. by left.
  - destruct (allowed_dirs_of _) as [e|ds]; [done|]. intros [= <-].
    right. split; [done|]. by exists ds.
Qed.

(** X1. Without an allow-list ([None] or an empty collection) the filter
    never raises; with [include_root] it returns the listing unchanged,
    without it exactly the paths of two or more components, that is, the
    files that sit in some sub-directory. *)
Theorem matching_subdirs_unrestricted (all_rel : list PurePath)
    (include_subdirs : option (list string)) :
  include_subdirs = None ∨ include_subdirs = Some [] →
  Forall wf_rel all_rel →
  matching_subdirs all_rel include_subdirs true = inr all_rel
  ∧ matching_subdirs all_rel include_subdirs false
    = inr (filter (λ p, 2 ≤ length (_parts p)) all_rel).
Proof.
  intros HS Hwf. unfold matching_subdirs.
  assert (falsy include_subdirs = true) as -> by (by destruct HS as [-> | ->]).
  split; [done|]. f_equal. apply filter_bool_decide. intros p Hp.
  eapply Forall_forall in Hwf as [Hr _]; [|done].
  rewrite negb_true_iff, <- not_true_iff_false, path_eqb_root.
  rewrite (at_root_relative p Hr). lia.
Qed.

Lemma matching_subdirs_unrestricted_witness :
  matching_subdirs scenario_B (Some []) true = inr scenario_B
  ∧ matching_subdirs scenario_B (Some []) false
    = inr (filter (λ p, 2 ≤ length (_parts p)) scenario_B).
Proof.
  apply (matching_subdirs_unrestricted scenario_B (Some [])).
  - by right.
  - compute_done.
Defined.

(** X2. [include_root] decides about the paths directly in the root and
    about nothing else: the allow-list is accepted or rejected regardless of
    the flag, and the result with the flag is the result without it together
    with every root-level path of the listing, in listing order. *)
Theorem matching_subdirs_include_root (all_rel : list PurePath)
    (include_subdirs : option (list string)) :
  (∀ e, matching_subdirs all_rel include_subdirs true = inl e
        ↔ matching_subdirs all_rel include_subdirs false = inl e)
  ∧ ∀ out0 out1,
      matching_subdirs all_rel include_subdirs false = inr out0 →
      matching_subdirs all_rel include_subdirs true = inr out1 →
      out0 `sublist_of` out1
      ∧ ∀ p, p ∈ out1 ↔ p ∈ out0 ∨ (p ∈ all_rel ∧ at_root p).
Proof.
  split.
  - intros e. unfold matching_subdirs. destruct (falsy include_subdirs); [done|].
    by destruct (allowed_dirs_of _).
  - intros out0 out1 H0 H1.
    apply matching_subdirs_inr in H0 as [[Hf ->]|(Hf & ds & Hds & ->)];
      apply matching_subdirs_inr in H1 as [[Hf' ->]|(Hf' & ds' & Hds' & ->)];
      try congruence.
    + split; [apply filter_bool_sublist|]. intros p.
      rewrite elem_of_filter_bool, negb_true_iff, <- not_true_iff_false,
        path_eqb_root.
      destruct (decide (at_root p)); tauto.
    + rewrite Hds in Hds'. injection Hds' as <-. split.
      * apply filter_bool_mono. intros p _ H. cbn [andb orb] in H.
        apply orb_true_iff. by right.
      * intros p. rewrite !elem_of_filter_bool. cbn [andb orb].
        rewrite orb_true_iff, path_eqb_root. tauto.
Qed.

Lemma allowed_dirs_normalized S ds :
  allowed_dirs_of S = inr ds → ds = normalized <$> S.
Proof.
  intros HS.
  assert (allowed_dirs_of S = inr (normalized <$> S)) as HS'; [|congruence].
  apply mapM_result_inr. intros s Hs. apply normalize_wellformed. intros Hm.
  by apply (mapM_result_not_inr normalize_subdir S s ValueError ds Hs
              (normalize_malformed s Hm)).
Qed.

Lemma allowed_dirs_inr_iff S :
  (∃ ds, allowed_dirs_of S = inr ds) ↔ ¬ Exists malformed S.
Proof.
  split.
  - intros [ds HS] Hm. by rewrite (allowed_dirs_malformed S Hm) in HS.
  - apply allowed_dirs_wellformed.
Qed.

Lemma existsb_same_elements {A} (f : A → bool) (l l' : list A) :
  (∀ x, x ∈ l ↔ x ∈ l') → existsb f l = existsb f l'.
Proof.
  intros H. apply eq_true_iff_eq. rewrite !existsb_exists.
  split; intros (x & Hx%list_elem_of_In & Hf); exists x;
    (split; [apply list_elem_of_In, H, Hx | done]).
Qed.

(** X3. The allow-list is used as a set: two allow-lists with the same
    entries, in whatever order and however often repeated, give the same
    result, be it a list or the rejection. *)
Theorem matching_subdirs_allow_set (all_rel : list PurePath)
    (S S' : list string) (include_root : bool) :
  (∀ s, s ∈ S ↔ s ∈ S') →
  matching_subdirs all_rel (Some S) include_root
  = matching_subdirs all_rel (Some S') include_root.
Proof.
  intros HSS. destruct (decide (S = [])) as [->|HS].
  { destruct S' as [|s' S']; [done|]. exfalso.
    eapply not_elem_of_nil, HSS. left. }
  assert (S' ≠ []) as HS'.
  { intros ->. destruct S as [|s S]; [done|].
    eapply not_elem_of_nil, HSS. left. }
  unfold matching_subdirs. rewrite !falsy_cons by done.
  change (default [] (Some S)) with S. change (default [] (Some S')) with S'.
  assert (Exists malformed S ↔ Exists malformed S') as Hm.
  { rewrite !Exists_exists. by setoid_rewrite HSS. }
  destruct (decide (Exists malformed S)) as [Hbad|Hok].
  - by rewrite (allowed_dirs_malformed S Hbad),
      (allowed_dirs_malformed S' (proj1 Hm Hbad)).
  - destruct (allowed_dirs_wellformed S Hok) as [ds Hds].
    destruct (allowed_dirs_wellformed S' (λ H, Hok (proj2 Hm H))) as [ds' Hds'].
    rewrite Hds, Hds'. cbn [mbind result_bind mret result_ret]. f_equal.
    apply filter_bool_ext_in. intros p _. f_equal. unfold _in_allowed_tree.
    apply existsb_same_elements. intros d.
    rewrite (allowed_dirs_normalized S ds Hds),
      (allowed_dirs_normalized S' ds' Hds'), !list_elem_of_fmap.
    by setoid_rewrite HSS.
Qed.

Lemma matching_subdirs_allow_set_witness :
  matching_subdirs scenario_B (Some ["Cat2"; "Cat1"; "Cat2"]) false
  = matching_subdirs scenario_B (Some ["Cat1"; "Cat2"]) false.
Proof.
  apply (matching_subdirs_allow_set scenario_B ["Cat2"; "Cat1"; "Cat2"]
           ["Cat1"; "Cat2"] false).
  intros s. rewrite !elem_of_cons, !elem_of_nil. tauto.
Defined.

Lemma allowed_dirs_app S T ds' :
  allowed_dirs_of (S ++ T) = inr ds' →
  ∃ ds dt, allowed_dirs_of S = inr ds ∧ ds' = ds ++ dt.
Proof.
  intros H. apply mapM_result_Forall2, Forall2_app_inv_l in H
    as (ds & dt & HS & _ & ->).
  exists ds, dt. split; [by apply mapM_result_Forall2 | done].
Qed.

(** X4. A longer allow-list admits more: when entries are added to a
    non-empty allow-list and both lists are accepted, every path kept before
    is still kept, in the same order. (The empty allow-list is not the
    smallest one: it stands for no restriction.) *)
Theorem matching_subdirs_allow_more (all_rel : list PurePath)
    (S T : list string) (include_root : bool) (out out' : list PurePath) :
  S ≠ [] →
  matching_subdirs all_rel (Some S) include_root = inr out →
  matching_subdirs all_rel (Some (S ++ T)) include_root = inr out' →
  out `sublist_of` out'.
Proof.
  intros HS H H'.
  apply matching_subdirs_inr in H as [[Hf _]|(_ & ds & Hds & ->)].
  { by rewrite falsy_cons in Hf. }
  apply matching_subdirs_inr in H' as [[Hf _]|(_ & ds' & Hds' & ->)].
  { rewrite falsy_cons in Hf; [done | by destruct S]. }
  change (default [] (Some ?l)) with l in *.
  apply allowed_dirs_app in Hds' as (ds0 & dt & Hds0 & ->).
  rewrite Hds in Hds0. injection Hds0 as <-.
  apply filter_bool_mono. intros p _. rewrite !orb_true_iff.
  intros [?|Ht]; [by left | right].
  unfold _in_allowed_tree in *. rewrite existsb_app, Ht. done.
Qed.

Lemma matching_subdirs_allow_more_witness :
  Path <$> ["Cat1/x.md"; "Cat1/Sub/y.md"]
  `sublist_of` Path <$> ["Cat1/x.md"; "Cat1/Sub/y.md"; "Cat2/z.md"].
Proof.
  apply (matching_subdirs_allow_more scenario_B ["Cat1"] ["Cat2"] false).
  - discriminate.
  - reflexivity.
  - reflexivity.
Defined.

Lemma length_str_drop n s :
  String.length (Str.drop n s) = String.length s - n.
Proof.
  revert s. induction n as [|n IH]; intros [|a s]; cbn; done.
Qed.

Lemma length_str_take n s :
  String.length (Str.take n s) = n `min` String.length s.
Proof.
  revert s. induction n as [|n IH]; intros [|a s]; cbn; try done.
  by rewrite IH.
Qed.

(** A path with a suffix: the stem is a proper, non-empty beginning of the
    name. *)
Lemma stem_shorter p :
  suffix p ≠ "" →
  stem_of p ≠ ""
  ∧ String.length (stem_of p) < String.length (name p).
Proof.
  intros Hs. unfold stem_of. rewrite (proj2 (nonempty_true _) Hs).
  unfold suffix in *.
  destruct (_ && _)%bool eqn:Hi; [|done].
  apply andb_true_iff in Hi as [H1%Z.ltb_lt H2%Z.ltb_lt].
  set (nm := name p) in *. set (i := Str.rfind "." nm) in *.
  rewrite length_str_drop.
  assert (String.length nm - (String.length nm - Z.to_nat i) = Z.to_nat i)
    as -> by lia.
  split.
  - intros Ht. apply (f_equal String.length) in Ht.
    rewrite length_str_take in Ht. cbn in Ht. lia.
  - rewrite length_str_take. lia.
Qed.

Lemma Path_relative_named s :
  ¬ malformed s →
  ∃ comps, Path s = mkPath "" (comps ++ [name (Path s)])
           ∧ Forall wf_component (comps ++ [name (Path s)])
           ∧ removelast (_parts (Path s)) = comps.
Proof.
  intros Hm.
  destruct (Path_cases s) as [(comps & Hs & Hwf)|(root & comps & Hr & Hs & _)].
  - assert (name (Path s) ≠ "") as Hn by (intros H; apply Hm; by right).
    rewrite Hs, name_relative in *. destruct comps as [|c comps] using rev_ind.
    { done. }
    rewrite last_snoc. exists comps. split_and!; [done..|].
    cbn. by rewrite removelast_last.
  - destruct Hm. left. rewrite Hs. cbn. by destruct Hr as [-> | ->].
Qed.

(** X5. The last suffix of an allow-list entry is always taken off, so an
    entry naming a directory with a dot in its name does not admit the files
    of that directory: with the single entry ["Notes.2024"], what lies
    directly in [Notes.2024/] is filtered out. *)
Theorem matching_subdirs_dotted_entry (all_rel : list PurePath) (s : string)
    (include_root : bool) (p : PurePath) (out : list PurePath) :
  ¬ malformed s → suffix (Path s) ≠ "" → stem_of (Path s) ≠ "." →
  parent p = Path s →
  matching_subdirs all_rel (Some [s]) include_root = inr out →
  p ∉ out.
Proof.
  intros Hm Hsuf Hdot Hpar H.
  apply matching_subdirs_inr in H as [[Hf _]|(_ & ds & Hds & ->)]; [done|].
  change (default [] (Some [s])) with [s] in Hds.
  apply allowed_dirs_normalized in Hds as ->.
  destruct (Path_relative_named s Hm) as (comps & Hs & Hwf & Hrem).
  destruct (stem_shorter (Path s) Hsuf) as [Hne Hlt].
  assert (stem_of (Path s) ≠ name (Path s)) as Hstem.
  { intros Heq. rewrite Heq in Hlt. lia. }
  intros [_ Hp]%elem_of_filter_bool. rewrite Hpar in Hp.
  unfold _in_allowed_tree in Hp. rewrite Hpar in Hp. cbn [fmap list_fmap existsb] in Hp.
  rewrite orb_false_r in Hp.
  apply orb_true_iff in Hp as [Hp|Hp].
  { apply andb_true_iff in Hp as [_ Hp]. unfold path_eqb in Hp.
    apply bool_decide_eq_true in Hp. rewrite Hs in Hp. by destruct comps. }
  assert (_parts (normalized s) = comps ++ [stem_of (Path s)]) as Hd
    by (unfold normalized; cbn; by rewrite Hrem).
  apply orb_true_iff in Hp as [Hp|Hp].
  - unfold path_eqb in Hp. apply bool_decide_eq_true in Hp.
    rewrite Hd in Hp. rewrite Hs in Hp at 1. cbn in Hp.
    by apply app_inj_tail in Hp as [_ Hp].
  - apply Forall_app in Hwf as [Hcomps Hname].
    apply Forall_singleton in Hname as (_ & Hsep & _).
    assert (Forall wf_component (comps ++ [stem_of (Path s)])) as Hwfd.
    { apply Forall_app. split; [done|]. apply Forall_singleton.
      split_and!; [done | by apply stem_sepfree | done]. }
    apply is_relative_to_prefix in Hp.
    + rewrite segments_unfold, Hd, (parse_parts_wf _ Hwfd) in Hp.
      rewrite Hs in Hp. cbn in Hp. destruct Hp as [k Hk].
      rewrite <- app_assoc in Hk. apply app_inv_head in Hk.
      rewrite <- Hs in Hk. injection Hk as Hk _. done.
    + by rewrite Hs.
    + rewrite Hd. by apply wf_component_sepfree.
Qed.

Lemma matching_subdirs_dotted_entry_witness :
  Path "Notes.2024/a.md" ∉ Path <$> ["Notes/b.md"].
Proof.
  apply (matching_subdirs_dotted_entry
           (Path <$> ["Notes.2024/a.md"; "Notes/b.md"]) "Notes.2024" false
           (Path "Notes.2024/a.md")).
  - compute_done.
  - compute_done.
  - compute_done.
  - reflexivity.
  - reflexivity.
Defined.

(** ** More on the FilenameResolver *)

Lemma zip_fmap_self {A B} (f : A → B) (l : list A) :
  zip (f <$> l) l = (λ x, (f x, x)) <$> l.
Proof. induction l as [|x l IH]; cbn; [done | by rewrite IH]. Qed.

(** The mapping holds the pair of a key and a path exactly when the path is
    in the list and the key is its key. *)
Lemma resolver_lookup (paths : list PurePath) k p :
  Forall wf_path paths →
  dict_of (zip (key_of paths <$> paths) paths) !! k = Some p
  ↔ p ∈ paths ∧ k = key_of paths p.
Proof.
  intros Hwf. rewrite dict_of_list_to_map, zip_fmap_self.
  set (l := reverse ((λ x, (key_of paths x, x)) <$> paths)).
  assert (∀ k' p', (k', p') ∈ l ↔ p' ∈ paths ∧ k' = key_of paths p') as Hl.
  { intros k' p'. unfold l. rewrite elem_of_reverse, list_elem_of_fmap. split.
    - by intros (x & [= -> ->] & Hx).
    - intros [Hp ->]. by exists p'. }
  split.
  - intros H%elem_of_list_to_map_2. by apply Hl.
  - intros [Hp ->].
    destruct (list_to_map l !! key_of paths p) as [p'|] eqn:Hlk.
    + apply elem_of_list_to_map_2, Hl in Hlk as [Hp' Hk].
      f_equal. by apply (key_of_inj paths).
    + apply not_elem_of_list_to_map in Hlk. destruct Hlk.
      apply list_elem_of_fmap. exists (key_of paths p, p).
      split; [done|]. by apply Hl.
Qed.

Lemma remove_dups_fmap_length {A B} `{EqDecision A, EqDecision B}
    (f : A → B) (l : list A) :
  (∀ x y, x ∈ l → y ∈ l → f x = f y → x = y) →
  length (remove_dups (f <$> l)) = length (remove_dups l).
Proof.
  induction l as [|x l IH]; intros Hinj; [done|].
  assert (length (remove_dups (f <$> l)) = length (remove_dups l)) as IH'.
  { apply IH. intros y z Hy Hz. apply Hinj; by right. }
  cbn. destruct (decide_rel elem_of x l) as [Hx|Hx];
    destruct (decide_rel elem_of (f x) (f <$> l)) as [Hfx|Hfx]; cbn.
  - done.
  - destruct Hfx. apply list_elem_of_fmap. by exists x.
  - apply list_elem_of_fmap in Hfx as (y & Hxy & Hy).
    apply Hinj in Hxy; [by subst | left | by right].
  - by rewrite IH'.
Qed.

(** X6. Whatever the list of paths, repeats included, as long as every
    path is one that [pathlib] parses and none ends with a NUL character:
    looking up the key of any position gives back the path at that position,
    every entry of the mapping comes from a position, and the mapping has as
    many entries as the list has distinct paths. *)
Theorem resolver_round_trip (paths : list PurePath) :
  Forall wf_path paths → Forall (λ p, unpadded (str p)) paths →
  ∃ m, _get_shortest_path_by_filename paths = inr m
    ∧ (∀ p, p ∈ paths → m !! key_of paths p = Some p)
    ∧ (∀ k p, m !! k = Some p → p ∈ paths ∧ k = key_of paths p)
    ∧ size m = length (remove_dups paths).
Proof.
  intros Hwf Hall. eexists. split; [by apply resolver_unfold|]. split_and!.
  - intros p Hp. by apply resolver_lookup.
  - intros k p. by apply resolver_lookup.
  - rewrite <- size_dom, dict_of_list_to_map, dom_list_to_map_L.
    rewrite fmap_reverse, fst_zip by (by rewrite length_fmap).
    rewrite <- (remove_dups_fmap_length (key_of paths))
      by (intros p q; by apply key_of_inj).
    rewrite <- (size_list_to_set (C := gset string)) by apply NoDup_remove_dups.
    f_equal. apply set_eq. intros k.
    by rewrite !elem_of_list_to_set, elem_of_reverse, elem_of_remove_dups.
Qed.

Lemma resolver_round_trip_witness :
  ∃ m, _get_shortest_path_by_filename (Path <$> ["x/a.md"; "b.md"; "x/a.md"])
       = inr m
    ∧ (∀ p, p ∈ Path <$> ["x/a.md"; "b.md"; "x/a.md"] →
            m !! key_of (Path <$> ["x/a.md"; "b.md"; "x/a.md"]) p = Some p)
    ∧ (∀ k p, m !! k = Some p →
              p ∈ Path <$> ["x/a.md"; "b.md"; "x/a.md"]
              ∧ k = key_of (Path <$> ["x/a.md"; "b.md"; "x/a.md"]) p)
    ∧ size m = length (remove_dups (Path <$> ["x/a.md"; "b.md"; "x/a.md"])).
Proof.
  apply (resolver_round_trip (Path <$> ["x/a.md"; "b.md"; "x/a.md"]));
    compute_done.
Defined.

Lemma multiplicity_Permutation fname (paths paths' : list PurePath) :
  paths ≡ₚ paths' → multiplicity fname paths = multiplicity fname paths'.
Proof. intros H. unfold multiplicity. by rewrite H. Qed.

(** X7. The mapping does not depend on the order of the list: for paths
    that [pathlib] parses, none ending with a NUL character, a rearrangement
    of the same paths gives the same mapping. *)
Theorem resolver_order_irrelevant (paths paths' : list PurePath) :
  Forall wf_path paths → Forall (λ p, unpadded (str p)) paths →
  paths ≡ₚ paths' →
  _get_shortest_path_by_filename paths = _get_shortest_path_by_filename paths'.
Proof.
  intros Hwf Hall Hperm.
  assert (Forall wf_path paths') as Hwf' by by rewrite <- Hperm.
  assert (Forall (λ p, unpadded (str p)) paths') as Hall'
    by by rewrite <- Hperm.
  rewrite !resolver_unfold by done. f_equal.
  apply map_eq. intros k. apply option_eq. intros p.
  rewrite !resolver_lookup by done.
  assert (key_of paths p = key_of paths' p) as ->.
  { unfold key_of.
    by rewrite (multiplicity_Permutation (name p) paths paths' Hperm). }
  assert (p ∈ paths ↔ p ∈ paths') as -> by by rewrite Hperm.
  done.
Qed.

Lemma resolver_order_irrelevant_witness :
  _get_shortest_path_by_filename (Path <$> ["a.md"; "sub/a.md"; "sub/b.md"])
  = _get_shortest_path_by_filename (Path <$> ["sub/b.md"; "a.md"; "sub/a.md"]).
Proof.
  apply (resolver_order_irrelevant
           (Path <$> ["a.md"; "sub/a.md"; "sub/b.md"])
           (Path <$> ["sub/b.md"; "a.md"; "sub/a.md"])).
  - compute_done.
  - compute_done.
  - change (Path <$> ["sub/b.md"; "a.md"; "sub/a.md"])
      with ([Path "sub/b.md"] ++ (Path <$> ["a.md"; "sub/a.md"])).
    change (Path <$> ["a.md"; "sub/a.md"; "sub/b.md"])
      with ((Path <$> ["a.md"; "sub/a.md"]) ++ [Path "sub/b.md"]).
    apply Permutation_app_comm.
Defined.

Lemma split_single c s : Str.contains c s = false → Str.split c s = [s].
Proof.
  induction s as [|a s IH]; [done|]. cbn.
  intros [-> Hs]%orb_false_elim. by rewrite (IH Hs).
Qed.

Lemma split_app_sepfree c x :
  Str.contains sep c = false →
  Str.split sep (c +:+ String sep x) = c :: Str.split sep x.
Proof.
  induction c as [|a c IH].
  - intros _. change ("" +:+ String sep x) with (String sep x). done.
  - change (String a c +:+ String sep x) with (String a (c +:+ String sep x)).
    cbn [Str.contains Str.split]. intros [-> Hc]%orb_false_elim.
    by rewrite (IH Hc).
Qed.

Lemma split_join comps :
  Forall wf_component comps → comps ≠ [] →
  Str.split sep (Str.join "/" comps) = comps.
Proof.
  induction 1 as [|c rest (_ & Hc & _) Hrest IH]; [done|]. intros _.
  rewrite join_cons. destruct rest as [|c' rest'].
  - cbn [tail_str]. rewrite append_empty_r. by apply split_single.
  - cbn [tail_str]. rewrite (split_app_sepfree c _ Hc), IH; done.
Qed.

(** Parsing the string of a relative path gives the path back. *)
Lemma Path_str p : wf_rel p → Path (str p) = p.
Proof.
  intros Hp. rewrite (str_relative p Hp). destruct Hp as [Hr Hwf].
  destruct p as [r comps]. cbn in *. subst r.
  destruct comps as [|c rest]; [done|].
  assert (Str.split sep (Str.join "/" (c :: rest)) = c :: rest) as Hsplit
    by by apply split_join.
  destruct (join_head c rest) as (a & t & HJ & Ha).
  { by apply Forall_cons in Hwf as [? _]. }
  remember (Str.join "/" (c :: rest)) as J eqn:HeqJ. clear HeqJ.
  unfold Path, PathOf, _parse_args, parse_parts. cbn [List.map concat app rev parse_rev].
  rewrite HJ. cbn [Str.nonempty String.eqb negb splitroot].
  rewrite (proj2 (Ascii.eqb_neq a sep) Ha). cbn [Str.nonempty String.eqb negb app].
  rewrite <- HJ. f_equal. unfold rel_components.
  destruct (Str.contains sep J) eqn:Hc.
  - rewrite Hsplit. by apply (filter_keep_wf (c :: rest)).
  - rewrite (split_single sep J Hc) in Hsplit. injection Hsplit as <- <-.
    apply Forall_cons in Hwf as [Hw _]. fold (keep J).
    by rewrite (wf_keep J Hw).
Qed.

Lemma Path_component c : wf_component c → Path c = mkPath "" [c].
Proof.
  intros Hc.
  assert (wf_rel (mkPath "" [c])) as Hw by (split; [done | by constructor]).
  pose proof (Path_str _ Hw) as H. by rewrite (str_relative _ Hw) in H.
Qed.

Lemma wf_rel_path p : wf_rel p → wf_path p.
Proof. by left. Qed.

(** X8. A key leads back to its file: for relative paths, none ending
    with a NUL character, every key of the mapping, read as a path, has the
    bare name of the file it stands for, and the key of a file whose name is
    duplicated reads as the relative path of that file. *)
Theorem resolver_keys_parse_back (paths : list PurePath) :
  Forall wf_rel paths → Forall (λ p, unpadded (str p)) paths →
  ∃ m, _get_shortest_path_by_filename paths = inr m
    ∧ ∀ k p, m !! k = Some p →
        name (Path k) = name p
        ∧ (1 < multiplicity (name p) paths → Path k = p).
Proof.
  intros Hwf Hall. eexists. split; [by apply resolver_unfold|]. intros k p Hk.
  assert (Forall wf_path paths) as Hwf'
    by (eapply Forall_impl; [exact Hwf | apply wf_rel_path]).
  apply resolver_lookup in Hk as [Hp ->]; [|done].
  assert (wf_rel p) as Hwp by by eapply Forall_forall in Hwf.
  unfold key_of. case_decide as Hm.
  - by rewrite (Path_str p Hwp).
  - split; [|lia].
    destruct (name_cases p (wf_rel_path p Hwp)) as [-> | Hn]; [done|].
    by rewrite (Path_component _ Hn), name_relative.
Qed.

Lemma resolver_keys_parse_back_witness :
  ∃ m, _get_shortest_path_by_filename scenario_A = inr m
    ∧ ∀ k p, m !! k = Some p →
        name (Path k) = name p
        ∧ (1 < multiplicity (name p) scenario_A → Path k = p).
Proof.
  apply (resolver_keys_parse_back scenario_A); compute_done.
Defined.

(** ** More on the listings *)

Lemma make_selector_cons pat child_parts :
  Fs._make_selector (pat :: child_parts) =
    if negb (Str.nonempty pat) then inr Fs.Terminating
    else
      let dironly := match child_parts with
                     | [] => false
                     | _ => true
                     end in
      let successor := match child_parts with
                       | [] => inr Fs.Terminating
                       | _ => Fs._make_selector child_parts
                       end in
      if String.eqb pat "**" then Fs.RecursiveWildcard <$> successor
      else if Fs.infix "**" pat then inl ValueError
      else if Fs._is_wildcard_pattern pat
           then Fs.Wildcard pat dironly <$> successor
           else Fs.Precise pat dironly <$> successor.
Proof. by destruct child_parts. Qed.

Lemma make_selector_error pattern_parts : ∀ pat e,
  Fs._make_selector (pat :: pattern_parts) = inl e → e = ValueError.
Proof.
  induction pattern_parts as [|pat' rest IH]; intros pat e;
    rewrite make_selector_cons; cbv zeta.
  - repeat match goal with
           | |- context [if ?b then _ else _] => destruct b
           end; intros H;
      cbv [fmap result_fmap] in H; congruence.
  - destruct (Fs._make_selector (pat' :: rest)) as [e'|sel] eqn:Hs.
    + apply IH in Hs as ->.
      repeat match goal with
             | |- context [if ?b then _ else _] => destruct b
             end; intros H;
        cbv [fmap result_fmap] in H; congruence.
    + repeat match goal with
             | |- context [if ?b then _ else _] => destruct b
             end; intros H;
        cbv [fmap result_fmap] in H; congruence.
Qed.

Lemma rglob_outcome w self extension :
  Fs.rglob w self ("*." +:+ extension) = inl ValueError
  ∨ ∃ sel, Fs.rglob w self ("*." +:+ extension)
           = inr (Fs.select_from w sel self).
Proof.
  unfold Fs.rglob.
  change (parse_parts ["*." +:+ extension])
    with ("", rel_components ("*." +:+ extension)).
  change (Str.nonempty "") with false. cbv iota.
  destruct (Fs._make_selector _) as [e|sel] eqn:Hs.
  - left. by apply make_selector_error in Hs as ->.
  - right. by exists sel.
Qed.

Lemma select_from_no_directory w sel p :
  ¬ is_directory w p → Fs.select_from w sel p = [].
Proof.
  intros Hd. unfold Fs.select_from.
  destruct (Fs.resolve w p) as [l|] eqn:Hl; [|done].
  destruct (Fs.is_dir l) eqn:Hdir; [|done]. destruct Hd. by exists l.
Qed.



Lemma listing_literal_returns w dir_path extension :
  literal extension → wf_path dir_path →
  ∃ all_rel, get_relpaths_from_dir w dir_path extension = inr all_rel.
Proof.
  intros Hext Hd. unfold get_relpaths_from_dir.
  rewrite (rglob_literal w dir_path extension Hext). cbn [mbind result_bind].
  apply mapM_result_is_inr. intros e [He _]%elem_of_filter_bool.
  apply select_recursive_wildcard in He as (l & cs & _ & _ & _ & _ & Hp).
  rewrite Hp, (relative_to_extend dir_path cs Hd). by eexists.
Qed.

Lemma matching_subdirs_error all_rel S include_root e :
  matching_subdirs all_rel S include_root = inl e
  ↔ e = ValueError ∧ Exists malformed (default [] S).
Proof.
  unfold matching_subdirs. destruct (falsy S) eqn:Hf.
  - split; [done|]. intros [_ Hm].
    destruct S as [[|s S]|]; try done; by apply Exists_nil in Hm.
  - destruct (decide (Exists malformed (default [] S))) as [Hm|Hm].
    + rewrite (allowed_dirs_malformed _ Hm). cbn. split.
      * by intros [= <-].
      * by intros [-> _].
    + destruct (allowed_dirs_wellformed _ Hm) as [ds ->]. cbn.
      split; [done | tauto].
Qed.



(** ** No file is listed twice *)

Lemma once_fresh found : ∀ yielded e,
  e ∈ Fs.once yielded found → existsb (path_eqb (fst e)) yielded = false.
Proof.
  induction found as [|e0 found IH]; intros yielded e; cbn;
    [by intros ?%not_elem_of_nil|].
  destruct (existsb (path_eqb (fst e0)) yielded) eqn:H0; [apply IH|].
  intros [->|He]%elem_of_cons; [done|].
  apply IH in He. cbn in He. by apply orb_false_elim in He as [_ ?].
Qed.

Lemma once_NoDup found : ∀ yielded,
  NoDup ((λ e, _parts (fst e)) <$> Fs.once yielded found).
Proof.
  induction found as [|e0 found IH]; intros yielded; cbn; [constructor|].
  destruct (existsb (path_eqb (fst e0)) yielded); [apply IH|].
  cbn. constructor; [|apply IH].
  intros (e & Heq & He)%list_elem_of_fmap.
  apply once_fresh in He. cbn in He. apply orb_false_elim in He as [He _].
  unfold path_eqb in He. apply bool_decide_eq_false in He. congruence.
Qed.

Lemma select_from_NoDup w sel dir_path :
  NoDup ((λ e, _parts (fst e))
           <$> Fs.select_from w (Fs.RecursiveWildcard sel) dir_path).
Proof.
  unfold Fs.select_from. destruct (Fs.resolve w dir_path) as [l|];
    [|constructor].
  destruct (Fs.is_dir l); [|constructor]. apply once_NoDup.
Qed.

Lemma listing_literal_NoDup w dir_path extension all_rel :
  literal extension → wf_path dir_path →
  get_relpaths_from_dir w dir_path extension = inr all_rel → NoDup all_rel.
Proof.
  intros Hext Hd. unfold get_relpaths_from_dir.
  rewrite (rglob_literal w dir_path extension Hext). cbn [mbind result_bind].
  set (found := Fs.select_from _ _ _).
  set (kept := List.filter (λ p, Fs.is_file (snd p)) found).
  set (h := λ ps : list string,
              mkPath "" (drop (length (_parts dir_path)) ps)).
  assert (∀ e, e ∈ kept → ∃ cs, fst e = extend dir_path cs) as Hshape.
  { intros e [He _]%elem_of_filter_bool.
    apply select_recursive_wildcard in He as (l & cs & _ & _ & _ & _ & Hp).
    by exists cs. }
  assert (mapM (λ p, relative_to (fst p) [ArgPath dir_path]) kept
          = inr (h <$> ((λ e, _parts (fst e)) <$> kept))) as ->.
  { rewrite <- list_fmap_compose. apply mapM_result_inr. intros e He.
    destruct (Hshape e He) as [cs Hp].
    rewrite Hp, (relative_to_extend dir_path cs Hd). unfold h. cbn.
    rewrite Hp. unfold extend. cbn. by rewrite drop_app_length. }
  intros [= <-]. apply NoDup_fmap_2_strong.
  - intros ps qs (e1 & -> & [cs1 H1]%Hshape)%list_elem_of_fmap
      (e2 & -> & [cs2 H2]%Hshape)%list_elem_of_fmap.
    rewrite H1, H2. unfold h, extend. cbn. rewrite !drop_app_length.
    by intros [= ->].
  - apply (sublist_NoDup _ ((λ e, _parts (fst e)) <$> found)).
    + apply select_from_NoDup.
    + apply fmap_sublist, filter_bool_sublist.
Qed.

(** X11. For a literal extension, on a file system that lists every name
    once, [get_relpaths_from_dir] returns the relative paths of the regular
    files below the directory whose name ends with the dot and the
    extension, every one of them, each exactly once, and nothing else. *)
Theorem get_relpaths_from_dir_exact (w : Fs.world) (dir_path : PurePath)
    (extension : string) :
  literal extension → wf_path dir_path → wf_world w →
  ∃ all_rel, get_relpaths_from_dir w dir_path extension = inr all_rel
    ∧ NoDup all_rel
    ∧ ∀ rel, rel ∈ all_rel
             ↔ ∃ cs l', below w dir_path cs l' ∧ Fs.is_file l' = true
                        ∧ rel = mkPath "" cs
                        ∧ has_extension extension (name rel).
Proof.
  intros Hext Hd Hw.
  destruct (get_relpaths_from_dir_literal w dir_path extension Hext Hd Hw)
    as (all_rel & Hall & Hiff).
  exists all_rel. split_and!; [done | | done].
  by apply (listing_literal_NoDup w dir_path extension).
Qed.

Lemma get_relpaths_from_dir_exact_witness :
  ∃ all_rel, get_relpaths_from_dir home_world (Path "v") "md" = inr all_rel
    ∧ NoDup all_rel
    ∧ ∀ rel, rel ∈ all_rel
             ↔ ∃ cs l', below home_world (Path "v") cs l'
                        ∧ Fs.is_file l' = true
                        ∧ rel = mkPath "" cs
                        ∧ has_extension "md" (name rel).
Proof.
  apply (get_relpaths_from_dir_exact home_world (Path "v") "md").
  - compute_done.
  - compute_done.
  - unfold wf_world, home_world, vault. cbn.
    repeat (constructor; cbn; try (intros H; repeat
      (apply elem_of_cons in H as [H|H]; [discriminate|]);
      by apply not_elem_of_nil in H)).
Defined.

(** ** From the listing to the keys *)

Lemma scandir_valid l nm l' :
  valid_loc l → (nm, l') ∈ Fs.scandir l → fs_name nm ∧ valid_loc l'.
Proof.
  intros [Hh Ha]. destruct l as [[|entries] ups]; [by intros ?%not_elem_of_nil|].
  intros (c & Hin & ->)%scandir_Dir. inversion Hh as [|? Hall]; subst.
  destruct (proj1 (Forall_forall _ _) Hall (nm, c) Hin) as [Hnm Hc].
  split; [done|]. split; cbn; [done | by constructor].
Qed.

Lemma lookup_valid l nm l' :
  valid_loc l → Fs.lookup l nm = Some l' → valid_loc l'.
Proof.
  intros Hv. unfold Fs.lookup. destruct (negb (Fs.is_dir l)); [done|].
  destruct (String.eqb nm "..").
  { intros [= <-]. destruct Hv as [Hh Ha].
    destruct (Fs.above l) as [|up ups] eqn:Hup; [by split; [|rewrite Hup]|].
    apply Forall_cons in Ha as [? ?]. by split. }
  destruct (String.eqb nm "."); [by intros [= <-]|].
  destruct (List.find _ _) as [[nm' lc]|] eqn:Hf; [|done].
  intros [= <-]. apply find_some in Hf as [Hin%list_elem_of_In _].
  by eapply scandir_valid.
Qed.

Lemma walk_valid cs : ∀ l l',
  valid_loc l → Fs.walk l cs = Some l' → valid_loc l'.
Proof.
  induction cs as [|c cs IH]; intros l l' Hv; cbn; [by intros [= <-]|].
  destruct (Fs.lookup l c) as [lc|] eqn:Hc; [|done]. cbn.
  apply IH. by eapply lookup_valid.
Qed.

Lemma resolve_valid w p l :
  valid_names (Fs.root_dir w) → Fs.resolve w p = Some l → valid_loc l.
Proof.
  intros Hw. unfold Fs.resolve. apply walk_valid. split; [done | constructor].
Qed.

Lemma reaches_valid l cs l' :
  valid_loc l → reaches l cs l' → Forall fs_name cs.
Proof.
  intros Hv Hr. induction Hr as [l|l nm c cs l' Hin Hr IH]; [constructor|].
  destruct (scandir_valid l nm c Hv Hin) as [Hnm Hc].
  constructor; [done | by apply IH].
Qed.

Lemma listing_literal_below w dir_path extension all_rel rel :
  literal extension → wf_path dir_path →
  get_relpaths_from_dir w dir_path extension = inr all_rel → rel ∈ all_rel →
  ∃ cs l', below w dir_path cs l' ∧ rel = mkPath "" cs.
Proof.
  intros Hext Hd. unfold get_relpaths_from_dir.
  rewrite (rglob_literal w dir_path extension Hext). cbn [mbind result_bind].
  intros Hall%mapM_result_Forall2 Hrel.
  apply list_elem_of_lookup in Hrel as [i Hi].
  destruct (Forall2_lookup_r _ _ _ _ _ Hall Hi) as (e & He & Hrel).
  apply list_elem_of_lookup_2, elem_of_filter_bool in He as [He _].
  apply select_recursive_wildcard in He as (l & cs & Hl & Hcs & Hr & _ & Hp).
  rewrite Hp, (relative_to_extend dir_path cs Hd) in Hrel.
  injection Hrel as <-. exists cs, (snd e). split; [|done].
  split; [done|]. by exists l.
Qed.

Lemma listing_literal_wf w dir_path extension all_rel :
  literal extension → wf_path dir_path → valid_names (Fs.root_dir w) →
  get_relpaths_from_dir w dir_path extension = inr all_rel →
  Forall wf_rel all_rel.
Proof.
  intros Hext Hd Hw Hall. apply Forall_forall. intros rel Hrel.
  destruct (listing_literal_below w dir_path extension all_rel rel
              Hext Hd Hall Hrel) as (cs & l' & [_ (l & Hl & Hr)] & ->).
  split; [done|]. cbn.
  apply (Forall_impl fs_name); [|by intros x [Hx _]].
  eapply reaches_valid; [|done]. by eapply resolve_valid.
Qed.

Lemma str_unpadded p : wf_path p → unpadded (name p) → unpadded (str p).
Proof.
  intros Hp Hn. destruct (decide (name p = "")) as [He|Hne].
  - destruct (name_cases p Hp) as [_|(Hc & _)]; [|done]. clear Hn.
    destruct (decide (wf_rel p)) as [Hrel|Habs].
    + rewrite (str_relative p Hrel). destruct Hrel as [Hr Hw].
      unfold name in He. rewrite Hr in He.
      destruct (_parts p) as [|c cs] eqn:Hparts; [done|].
      change (Str.nonempty "") with false in He.
      change (length (c :: cs) =? 0) with false in He. cbv iota in He.
      assert (wf_component (List.last (c :: cs) "")) as (Hc & _)
        by (eapply Forall_forall; [exact Hw | by apply last_in]).
      done.
    + destruct (str_absolute p Habs Hp) as (_ & _ & ->).
      destruct Hp as [?|(Hr & Hh & Hw)]; [done|].
      unfold name in He.
      assert (Str.nonempty (_root p) = true) as Hne
        by (by destruct Hr as [-> | ->]).
      rewrite Hne in He.
      destruct (_parts p) as [|x [|c cs]] eqn:Hparts; [done| |].
      * by destruct Hr as [-> | ->].
      * change (length (x :: c :: cs) =? 1) with false in He. cbv iota in He.
        change (List.last (x :: c :: cs) "") with (List.last (c :: cs) "") in He.
        assert (wf_component (List.last (c :: cs) "")) as (Hc & _)
          by (eapply Forall_forall; [exact Hw | by apply last_in]).
        done.
  - destruct (str_ends_with_name p Hne) as [x ->]. by apply unpadded_app.
Qed.

Lemma listing_literal_unpadded w dir_path extension all_rel :
  literal extension → wf_path dir_path → valid_names (Fs.root_dir w) →
  get_relpaths_from_dir w dir_path extension = inr all_rel →
  Forall (λ p, unpadded (str p)) all_rel.
Proof.
  intros Hext Hd Hw Hall. apply Forall_forall. intros rel Hrel.
  pose proof (listing_literal_wf w dir_path extension all_rel Hext Hd Hw Hall)
    as Hwf.
  apply str_unpadded; [left; by eapply Forall_forall in Hwf|].
  destruct (listing_literal_below w dir_path extension all_rel rel
              Hext Hd Hall Hrel) as (cs & l' & [Hcs (l & Hl & Hr)] & ->).
  rewrite name_relative. apply unpadded_nul_free.
  assert (Forall fs_name cs) as Hfs
    by (eapply reaches_valid; [by eapply resolve_valid | done]).
  eapply Forall_forall in Hfs as [_ Hnul]; [done|]. by apply last_in.
Qed.

(** X12. The whole pipeline: the files that
    [get_relpaths_matching_subdirs] returns for a literal extension are
    pairwise distinct relative paths, so the resolver maps them one to one:
    the mapping has one entry per file, the key of every file leads to that
    file, and it holds no other value. *)
Theorem listing_then_resolver (w : Fs.world) (dir_path : PurePath)
    (extension : string) (include_subdirs : option (list string))
    (include_root : bool) (files : list PurePath) :
  literal extension → wf_path dir_path → valid_names (Fs.root_dir w) →
  get_relpaths_matching_subdirs w dir_path extension include_subdirs
    include_root = inr files →
  NoDup files ∧ Forall wf_rel files
  ∧ ∃ m, _get_shortest_path_by_filename files = inr m
      ∧ size m = length files
      ∧ (∀ f, f ∈ files → m !! key_of files f = Some f)
      ∧ (∀ k f, m !! k = Some f → f ∈ files).
Proof.
  intros Hext Hd Hw. unfold get_relpaths_matching_subdirs.
  destruct (get_relpaths_from_dir w dir_path extension) as [e|all_rel] eqn:Hall;
    [done|].
  cbn [mbind result_bind]. intros Hout.
  assert (files `sublist_of` all_rel) as Hsub.
  { apply matching_subdirs_inr in Hout as [[_ ->]|(_ & ds & _ & ->)].
    - destruct include_root; [done | apply filter_bool_sublist].
    - apply filter_bool_sublist. }
  assert (NoDup files) as Hnd.
  { eapply sublist_NoDup; [|done].
    by apply (listing_literal_NoDup w dir_path extension). }
  assert (Forall wf_rel files) as Hwf.
  { apply Forall_forall. intros f Hf.
    eapply Forall_forall;
      [by apply (listing_literal_wf w dir_path extension all_rel)|].
    by eapply elem_of_sublist. }
  assert (Forall wf_path files) as Hwf'
    by (eapply Forall_impl; [exact Hwf | apply wf_rel_path]).
  assert (Forall (λ p, unpadded (str p)) files) as Hplain.
  { apply Forall_forall. intros f Hf.
    pose proof (listing_literal_unpadded w dir_path extension all_rel
                  Hext Hd Hw Hall) as Hu.
    eapply Forall_forall in Hu; [exact Hu|]. by eapply elem_of_sublist. }
  split_and!; [done..|]. eexists. split; [by apply resolver_unfold|].
  split_and!.
  - apply dict_of_size; [apply length_fmap | by apply keys_NoDup].
  - intros f Hf. by apply resolver_lookup.
  - intros k f Hk. by apply resolver_lookup in Hk as [? _].
Qed.

Lemma listing_then_resolver_witness :
  NoDup scenario_A ∧ Forall wf_rel scenario_A
  ∧ ∃ m, _get_shortest_path_by_filename scenario_A = inr m
      ∧ size m = length scenario_A
      ∧ (∀ f, f ∈ scenario_A → m !! key_of scenario_A f = Some f)
      ∧ (∀ k f, m !! k = Some f → f ∈ scenario_A).
Proof.
  apply (listing_then_resolver home_world (Path "v") "md" None true).
  - compute_done.
  - compute_done.
  - unfold home_world, vault. cbn.
    repeat (constructor; cbn; try (split; [compute_done|])).
  - vm_compute. reflexivity.
Defined.

(** ** The listing by a set of suffixes *)

Lemma rfind_lower c s : (-1 ≤ Str.rfind c s)%Z.
Proof.
  induction s as [|a s IH]; cbn [Str.rfind]; [lia|].
  destruct (Z.leb_spec 0 (Str.rfind c s)); [lia|]. destruct (Ascii.eqb a c); lia.
Qed.

Lemma rfind_absent c s : Str.contains c s = false → Str.rfind c s = (-1)%Z.
Proof.
  induction s as [|a s IH]; cbn [Str.rfind Str.contains]; [done|].
  intros [Ha Hs]%orb_false_elim. rewrite (IH Hs), Ha. done.
Qed.

Lemma rfind_append c stem t :
  Str.contains c t = false →
  Str.rfind c (stem +:+ String c t) = Z.of_nat (String.length stem).
Proof.
  intros Ht. induction stem as [|a stem IH].
  - change ("" +:+ String c t) with (String c t).
    cbn [Str.rfind String.length]. rewrite (rfind_absent c t Ht).
    cbn. by rewrite Ascii.eqb_refl.
  - change (String a stem +:+ String c t) with (String a (stem +:+ String c t)).
    cbn [Str.rfind String.length]. rewrite IH.
    destruct (Z.leb_spec 0 (Z.of_nat (String.length stem))); lia.
Qed.

Lemma rfind_split c s :
  (0 ≤ Str.rfind c s)%Z →
  ∃ stem t, s = stem +:+ String c t ∧ Str.contains c t = false
            ∧ Str.rfind c s = Z.of_nat (String.length stem).
Proof.
  induction s as [|a s IH]; cbn [Str.rfind]; [lia|].
  destruct (Z.leb_spec 0 (Str.rfind c s)) as [Hr|Hr].
  - intros _. destruct (IH Hr) as (stem & t & -> & Ht & Hi).
    exists (String a stem), t. split_and!; [done..|].
    rewrite Hi. cbn [String.length]. lia.
  - destruct (Ascii.eqb_spec a c) as [->|]; [|lia]. intros _.
    exists "", s. split_and!; [done| |done].
    pose proof (rfind_lower c s) as Hl.
    destruct (Str.contains c s) eqn:Hc; [|done].
    exfalso. clear IH Hl. revert Hr. induction s as [|b s IH]; [done|].
    cbn [Str.rfind Str.contains] in *.
    destruct (Z.leb_spec 0 (Str.rfind c s)); [lia|].
    destruct (Ascii.eqb_spec b c) as [->|Hb]; [lia|].
    cbn in Hc. intros _. apply IH; [done|lia].
Qed.

Lemma str_drop_append stem x : Str.drop (String.length stem) (stem +:+ x) = x.
Proof.
  induction stem as [|a stem IH]; [|exact IH].
  change ("" +:+ x) with x. by destruct x.
Qed.

Lemma str_length_append s t :
  String.length (s +:+ t) = String.length s + String.length t.
Proof.
  induction s as [|a s IH]; [done|].
  change (String a s +:+ t) with (String a (s +:+ t)). cbn. by f_equal.
Qed.

(** [PurePath.suffix] is the part of the name from its last dot on, provided
    that dot is neither the first nor the last character. *)
Lemma suffix_dot p t :
  suffix p = String "." t
  ↔ t ≠ "" ∧ Str.contains "." t = false
    ∧ ∃ stem, stem ≠ "" ∧ name p = stem +:+ String "." t.
Proof.
  unfold suffix. set (nm := name p). split.
  - destruct (_ && _)%bool eqn:Hi; [|done].
    apply andb_true_iff in Hi as [H1%Z.ltb_lt H2%Z.ltb_lt].
    destruct (rfind_split "." nm) as (stem & t' & Hnm & Ht' & Hr); [lia|].
    rewrite Hr, Nat2Z.id in *. rewrite Hnm, str_drop_append.
    intros [= <-]. rewrite Hnm, str_length_append in H2. cbn in H2.
    split_and!; [destruct t'; [cbn in H2; lia | done] | done |].
    exists stem. split; [|done]. destruct stem; [cbn in H1; lia | done].
  - intros (Ht & Hc & stem & Hstem & Hnm). rewrite Hnm.
    rewrite (rfind_append "." stem t Hc), Nat2Z.id, str_drop_append.
    rewrite str_length_append. cbn [String.length].
    assert (0 < String.length stem) by (destruct stem; [done | cbn; lia]).
    assert (0 < String.length t) by (destruct t; [done | cbn; lia]).
    destruct (_ && _)%bool eqn:Hi; [done|].
    apply andb_false_iff in Hi as [Hi%Z.ltb_ge|Hi%Z.ltb_ge]; lia.
Qed.

(** What [_get_valid_filepaths_by_ext_set] computes, once the glob and the
    [relative_to] calls are known to succeed. *)
Lemma ext_set_listing w dirpath exts :
  wf_path dirpath →
  _get_valid_filepaths_by_ext_set w dirpath exts
  = inr ((λ e, mkPath "" (drop (length (_parts dirpath)) (_parts (fst e))))
           <$> List.filter (λ p, bool_decide (suffix (fst p) ∈ exts))
                 (Fs.select_from w
                    (Fs.RecursiveWildcard (Fs.Wildcard "*" false Fs.Terminating))
                    dirpath)).
Proof.
  intros Hd. unfold _get_valid_filepaths_by_ext_set.
  rewrite (PathOf_wf_path dirpath Hd), glob_all. cbn [mbind result_bind].
  apply mapM_result_inr. intros e [He _]%elem_of_filter_bool.
  apply select_recursive_wildcard in He as (l & cs & _ & _ & _ & _ & Hp).
  rewrite Hp, (relative_to_extend dirpath cs Hd). cbn.
  by rewrite drop_app_length.
Qed.

Lemma ext_set_listing_elem w dirpath exts out rel :
  wf_path dirpath →
  _get_valid_filepaths_by_ext_set w dirpath exts = inr out →
  rel ∈ out ↔ ∃ cs l', below w dirpath cs l' ∧ rel = mkPath "" cs
                       ∧ suffix rel ∈ exts.
Proof.
  intros Hd. rewrite (ext_set_listing w dirpath exts Hd). intros [= <-].
  rewrite list_elem_of_fmap. split.
  - intros (e & -> & [He Hs%bool_decide_eq_true]%elem_of_filter_bool).
    apply select_recursive_wildcard in He as (l & cs & Hl & Hcs & Hr & _ & Hp).
    exists cs, (snd e). rewrite Hp in *. cbn [extend _parts].
    rewrite drop_app_length. split_and!; [split; eauto | done |].
    by rewrite <- (suffix_extend dirpath cs Hd Hcs).
  - intros (cs & l' & [Hcs (l & Hl & Hr)] & -> & Hs).
    destruct (select_recursive_wildcard_complete w "*" dirpath l cs l' Hl Hcs Hr)
      as (e & He & Hp); [apply compile_star|].
    exists e. split.
    + rewrite Hp. cbn. by rewrite drop_app_length.
    + apply elem_of_filter_bool. split; [done|]. apply bool_decide_eq_true.
      by rewrite Hp, (suffix_extend dirpath cs Hd Hcs).
Qed.

Lemma suffix_is_shaped p : suffix_shaped (suffix p) = true.
Proof.
  destruct (suffix_shape p) as [->|[t Ht]]; [done|]. rewrite Ht.
  apply suffix_dot in Ht as (Ht & Hc & _). cbn.
  by rewrite (proj2 (nonempty_true t) Ht), Hc.
Qed.

Lemma filter_bool_none {A} (f : A → bool) (l : list A) :
  (∀ x, x ∈ l → f x = false) → List.filter f l = [].
Proof.
  induction l as [|x l IH]; intros Hf; cbn; [done|].
  rewrite (Hf x) by left. apply IH. intros y Hy. apply Hf. by right.
Qed.

(** X13. An entry of [exts] that no [suffix] can equal (as ["md"], without
    its dot, or [".tar.gz"], with two) changes nothing: the result is that
    of the set without such entries, and the empty list when all entries are
    of that kind. *)
Theorem ext_set_inert_entries (w : Fs.world) (dirpath : PurePath)
    (exts : gset string) :
  _get_valid_filepaths_by_ext_set w dirpath exts
  = _get_valid_filepaths_by_ext_set w dirpath
      (filter (λ x, suffix_shaped x = true) exts)
  ∧ ((∀ x, x ∈ exts → suffix_shaped x = false) →
     _get_valid_filepaths_by_ext_set w dirpath exts = inr []).
Proof.
  unfold _get_valid_filepaths_by_ext_set.
  rewrite glob_all. cbn [mbind result_bind]. split.
  - f_equal. apply filter_bool_ext_in. intros e _.
    apply bool_decide_ext. rewrite elem_of_filter.
    pose proof (suffix_is_shaped (fst e)). tauto.
  - intros Hx. rewrite filter_bool_none; [done|]. intros e _.
    apply bool_decide_eq_false. intros He%Hx.
    by rewrite suffix_is_shaped in He.
Qed.

Lemma ext_set_inert_entries_witness :
  _get_valid_filepaths_by_ext_set home_world (Path "v") {[ "md"; ".tar.gz" ]}
  = inr [].
Proof.
  apply (ext_set_inert_entries home_world (Path "v") {[ "md"; ".tar.gz" ]}).
  by intros x [->%elem_of_singleton| ->%elem_of_singleton]%elem_of_union.
Defined.

(** X14. A larger set of suffixes gives a longer listing: the result for
    [exts] is a subsequence of the result for any set that contains [exts],
    and no path is listed twice. *)
Theorem ext_set_monotone (w : Fs.world) (dirpath : PurePath)
    (exts exts' : gset string) :
  wf_path dirpath → exts ⊆ exts' →
  ∃ out out',
    _get_valid_filepaths_by_ext_set w dirpath exts = inr out
    ∧ _get_valid_filepaths_by_ext_set w dirpath exts' = inr out'
    ∧ out `sublist_of` out' ∧ NoDup out'.
Proof.
  intros Hd Hsub. rewrite !(ext_set_listing w _ _ Hd).
  set (found := Fs.select_from _ _ _).
  eexists _, _. split_and!; [done..| |].
  - apply fmap_sublist, filter_bool_mono. intros e _.
    rewrite !bool_decide_eq_true. apply Hsub.
  - set (h := λ ps : list string, mkPath "" (drop (length (_parts dirpath)) ps)).
    rewrite (list_fmap_compose (λ e : Fs.entry, _parts (fst e)) h).
    apply NoDup_fmap_2_strong.
    + assert (∀ ps, ps ∈ (λ e : Fs.entry, _parts (fst e))
                            <$> List.filter
                                  (λ p, bool_decide (suffix (fst p) ∈ exts')) found
                    → ∃ cs, ps = _parts dirpath ++ cs) as Hshape.
      { intros ps (e & -> & [He _]%elem_of_filter_bool)%list_elem_of_fmap.
        apply select_recursive_wildcard in He as (l & cs & _ & _ & _ & _ & Hp).
        exists cs. by rewrite Hp. }
      intros ps qs [cs1 ->]%Hshape [cs2 ->]%Hshape. unfold h.
      rewrite !drop_app_length. by intros [= ->].
    + apply (sublist_NoDup _ ((λ e, _parts (fst e)) <$> found)).
      * apply select_from_NoDup.
      * apply fmap_sublist, filter_bool_sublist.
Qed.

Lemma ext_set_monotone_witness :
  ∃ out out',
    _get_valid_filepaths_by_ext_set home_world (Path "v") {[ ".md" ]} = inr out
    ∧ _get_valid_filepaths_by_ext_set home_world (Path "v") {[ ".md"; ".txt" ]}
      = inr out'
    ∧ out `sublist_of` out' ∧ NoDup out'.
Proof.
  apply (ext_set_monotone home_world (Path "v") {[ ".md" ]} {[ ".md"; ".txt" ]}).
  - compute_done.
  - apply union_subseteq_l.
Defined.

(** X15. The two listings compared, for a literal extension that is not
    empty and has no dot: a path that [get_relpaths_from_dir] returns is
    returned by [_get_valid_filepaths_by_ext_set] for the one suffix
    ["." + extension] unless its name is that suffix alone (a name that
    [PurePath.suffix] gives no suffix), and a path of the second listing is
    in the first exactly when it is a regular file: the second has no
    [is_file] test and lists directories too. *)
Theorem listings_compared (w : Fs.world) (dir_path : PurePath)
    (extension : string) :
  literal extension → extension ≠ "" → Str.contains "." extension = false →
  wf_path dir_path → wf_world w →
  ∃ all_rel by_set,
    get_relpaths_from_dir w dir_path extension = inr all_rel
    ∧ _get_valid_filepaths_by_ext_set w dir_path {[ "." +:+ extension ]}
      = inr by_set
    ∧ (∀ rel, rel ∈ all_rel →
         (rel ∈ by_set ↔ name rel ≠ "." +:+ extension))
    ∧ (∀ rel, rel ∈ by_set →
         (rel ∈ all_rel
          ↔ ∃ l', below w dir_path (_parts rel) l' ∧ Fs.is_file l' = true)).
Proof.
  intros Hext Hne Hdot Hd Hw.
  destruct (get_relpaths_from_dir_literal w dir_path extension Hext Hd Hw)
    as (all_rel & Hall & Hin).
  destruct (_get_valid_filepaths_by_ext_set w dir_path {[ "." +:+ extension ]})
    as [e|by_set] eqn:Hset; [by rewrite ext_set_listing in Hset|].
  pose proof (λ rel, ext_set_listing_elem w dir_path _ by_set rel Hd Hset) as Hin'.
  exists all_rel, by_set. split_and!; [done..| |].
  - intros rel (cs & l' & Hb & Hf & -> & [stem Hnm])%Hin.
    rewrite Hin'. split.
    + intros (cs' & l'' & _ & _ & Hs%elem_of_singleton).
      apply (proj1 (suffix_dot _ _)) in Hs as (_ & _ & stem' & Hstem & Hnm').
      rewrite Hnm'. intros Heq.
      apply (f_equal String.length) in Heq. rewrite str_length_append in Heq.
      change ("." +:+ extension) with (String "." extension) in Heq.
      destruct stem'; [done | cbn in Heq; lia].
    + intros Hnot. exists cs, l'. split_and!; [done..|].
      apply elem_of_singleton, suffix_dot. split_and!; [done..|].
      exists stem. split; [|done]. intros ->. by apply Hnot.
  - intros rel (cs & l'' & Hb & -> & Hs%elem_of_singleton)%Hin'.
    apply (proj1 (suffix_dot _ _)) in Hs as (_ & _ & stem & _ & Hnm).
    rewrite Hin. cbn [_parts]. split.
    + intros (cs' & l' & Hb' & Hf & [= <-] & _). by exists l'.
    + intros (l' & Hb' & Hf). exists cs, l'. split_and!; [done..|].
      by exists stem.
Qed.

Lemma listings_compared_witness :
  ∃ all_rel by_set,
    get_relpaths_from_dir home_world (Path "v") "md" = inr all_rel
    ∧ _get_valid_filepaths_by_ext_set home_world (Path "v") {[ ".md" ]}
      = inr by_set
    ∧ (∀ rel, rel ∈ all_rel → (rel ∈ by_set ↔ name rel ≠ ".md"))
    ∧ (∀ rel, rel ∈ by_set →
         (rel ∈ all_rel
          ↔ ∃ l', below home_world (Path "v") (_parts rel) l'
                  ∧ Fs.is_file l' = true)).
Proof.
  apply (listings_compared home_world (Path "v") "md");
    [compute_done | done | done | compute_done |].
  unfold wf_world, home_world, vault. cbn.
  repeat (constructor; cbn; try (intros H; repeat
    (apply elem_of_cons in H as [H|H]; [discriminate|]);
    by apply not_elem_of_nil in H)).
Defined.
